(** * WeakLabelModel: the weak-label logistic regression classifier

    A shallow embedding of [wlc/WLclassifier.py] (class
    [WeakLogisticRegression]) and the verification of its specification.

    Modelling conventions.
    - A numpy array of floats is modelled over the mathematical reals [R]:
      rounding, overflow, [nan] and [inf] are outside the model.  In
      particular [exp] is never zero over the reals, whereas in double
      precision it underflows to zero: bounds on probabilities are stated
      for the closed interval, and a property that needs a computed
      probability to be positive carries this as a hypothesis.
    - A 2-D array of shape (n, c) is the record [ndarray]: its number of
      columns and the list of its n rows.  A 1-D array is a [list].
    - Elementwise operations are modelled on operands of equal shape;
      numpy's broadcasting between different shapes and its [ValueError]
      on incompatible shapes are not modelled, the theorems carry the
      shapes as hypotheses.
    - Python exceptions are values of [exn]; a computation that may raise
      returns a [res].
    - The global generator [np.random], the object [self] and the standard
      output are the state of the monad [M].
    - The source is a Python 2 module (it uses the [print] statement and
      has no [from __future__ import division]); the operator [/] on
      integer arrays is therefore numpy's classic (floor) division. *)

From Stdlib Require Import String Reals Lra Lia ZArith Bool Arith List.
Import ListNotations.
Local Open Scope R_scope.

(** ** Exceptions and results *)

(** The Python exceptions the module can raise, together with the two
    conditions named by the specification that the module never raises
    ([NotFittedError], [ConvergenceFailure]).  [IndexError] is what the
    specification calls IndexOutOfRange. *)
Inductive exn : Type :=
| ValueError
| IndexError
| TypeError
| AttributeError
| NotFittedError
| ConvergenceFailure (msg : string).

Inductive res (A : Type) : Type :=
| Ok (a : A)
| Raise (e : exn).
Arguments Ok {A} a.
Arguments Raise {A} e.

Definition rbind {A B : Type} (m : res A) (k : A -> res B) : res B :=
  match m with
  | Ok a => k a
  | Raise e => Raise e
  end.

Declare Scope res_scope.
Delimit Scope res_scope with res.
Notation "x <- m ;; k" := (rbind m (fun x => k))
  (at level 61, m at next level, right associativity) : res_scope.

Fixpoint mapM {A B : Type} (f : A -> res B) (l : list A) : res (list B) :=
  match l with
  | [] => Ok []
  | a :: l' =>
      (b <- f a ;; bs <- mapM f l' ;; Ok (b :: bs))%res
  end.

(** ** Vectors *)

Fixpoint map2 {A B C : Type} (f : A -> B -> C) (l : list A) (l' : list B)
  : list C :=
  match l, l' with
  | a :: t, b :: t' => f a b :: map2 f t t'
  | _, _ => []
  end.

(** [np.sum] of a 1-D array. *)
Definition vsum (l : list R) : R := fold_right Rplus 0 l.

(** The sum of [f 0], ..., [f (n-1)]. *)
Definition bigsum (n : nat) (f : nat -> R) : R := vsum (map f (seq 0 n)).

(** The inner product of two 1-D arrays. *)
Definition dotp (a b : list R) : R := vsum (map2 Rmult a b).

Definition vadd (a b : list R) : list R := map2 Rplus a b.
Definition vscale (t : R) (a : list R) : list R := map (Rmult t) a.

(** [np.max] of a non-empty 1-D array. *)
Definition rmax (r : list R) : R :=
  match r with
  | [] => 0
  | a :: r' => fold_left Rmax r' a
  end.

(** ** Two-dimensional arrays *)

Record ndarray : Type := NDArray { ncols : nat; rows : list (list R) }.

Definition nrows (A : ndarray) : nat := length (rows A).

(** Every row has [ncols] entries. *)
Definition wf (A : ndarray) : bool :=
  forallb (fun r => Nat.eqb (length r) (ncols A)) (rows A).

(** [A] is a well-formed array of shape (n, c). *)
Definition has_shape (n c : nat) (A : ndarray) : bool :=
  Nat.eqb (nrows A) n && Nat.eqb (ncols A) c && wf A.

(** [A[i, j]] (0 outside the array). *)
Definition ent (A : ndarray) (i j : nat) : R := nth j (nth i (rows A) []) 0.

(** The array of shape (n, c) whose entry (i, j) is [f i j]. *)
Definition tab (n c : nat) (f : nat -> nat -> R) : ndarray :=
  NDArray c (map (fun i => map (f i) (seq 0 c)) (seq 0 n)).

(** [np.zeros((n, c))]. *)
Definition zeros (n c : nat) : ndarray := tab n c (fun _ _ => 0).

(** [np.dot(A, B)] for 2-D arrays. *)
Definition dot (A B : ndarray) : ndarray :=
  tab (nrows A) (ncols B)
      (fun i j => bigsum (ncols A) (fun k => ent A i k * ent B k j)).

(** [A.T]. *)
Definition transpose (A : ndarray) : ndarray :=
  tab (ncols A) (nrows A) (fun j i => ent A i j).

(** Elementwise binary operation on arrays of the same shape. *)
Definition ewise (f : R -> R -> R) (A B : ndarray) : ndarray :=
  NDArray (ncols A) (map2 (map2 f) (rows A) (rows B)).

(** Elementwise unary operation. *)
Definition emap (f : R -> R) (A : ndarray) : ndarray :=
  NDArray (ncols A) (map (map f) (rows A)).

(** [a * A] for a scalar [a]. *)
Definition scal (a : R) (A : ndarray) : ndarray := emap (Rmult a) A.

(** [A op v] where [v] is the (n, 1) result of a reduction with
    [keepdims=True]: row [i] of [A] is combined with [v[i]]. *)
Definition colop (f : R -> R -> R) (A : ndarray) (v : list R) : ndarray :=
  NDArray (ncols A) (map2 (fun r m => map (fun x => f x m) r) (rows A) v).

(** [np.max(A, axis=1, keepdims=True)]: numpy raises [ValueError] when the
    reduced axis has size zero. *)
Definition amax1 (A : ndarray) : res (list R) :=
  if Nat.eqb (ncols A) 0 then Raise ValueError else Ok (map rmax (rows A)).

(** [np.sum(A, axis=1, keepdims=True)]. *)
Definition sum1 (A : ndarray) : list R := map vsum (rows A).

(** [np.sum(A)]. *)
Definition sum_all (A : ndarray) : R := vsum (sum1 A).

(** [w.reshape((d, c))], row-major. *)
Fixpoint chunks (d c : nat) (w : list R) : list (list R) :=
  match d with
  | O => []
  | S d' => firstn c w :: chunks d' c (skipn c w)
  end.

Definition reshape2 (d c : nat) (w : list R) : ndarray :=
  NDArray c (chunks d c w).

(** [A.reshape((d*c))], row-major. *)
Definition ravel (A : ndarray) : list R := concat (rows A).

(** ** The random number generator *)

(** The state of [np.random]: the stream of standard normal draws fixed by
    the seed, and the number of draws consumed so far. *)
Record RandomState : Type := { stream : nat -> R; pos : nat }.

(** The next [n] draws, and the generator after them. *)
Definition draw (n : nat) (g : RandomState) : list R * RandomState :=
  (map (stream g) (seq (pos g) n),
   {| stream := stream g; pos := (pos g + n)%nat |}).

(** ** The classifier object *)

(** [self.params]: the dictionary with the keys ['n_it'] and ['rho']. *)
Record Params : Type := { n_it : Z; rho : R }.

(** The attributes of a [WeakLogisticRegression] instance.  [n_dim] and
    [W] do not exist until [fit] assigns them. *)
Record WeakLogisticRegression : Type := {
  sound : string;
  params : option Params;
  method : string;
  optimizer : string;
  n_classes : nat;
  classes_ : list nat;
  n_dim : option nat;
  W : option ndarray
}.

(** [__init__(self, n_classes=2, method="WL", optimizer='GD', params=None,
    sound='off')]. *)
Definition init (n_classes0 : nat) (method0 optimizer0 : string)
  (params0 : option Params) (sound0 : string) : WeakLogisticRegression :=
  {| sound := sound0;
     params := params0;
     method := method0;
     optimizer := optimizer0;
     n_classes := n_classes0;
     classes_ := seq 0 n_classes0;
     n_dim := None;
     W := None |}.

(** The labels given to [fit]: a 1-D array of class indices or a 2-D array
    of targets. *)
Inductive labels : Type :=
| Y1 (v : list Z)
| Y2 (T : ndarray).

(** What a [print] statement writes. *)
Inductive printed : Type :=
| PBool (b : bool)
| PInt (z : Z)
| PStr (s : string).

(** The result object of [scipy.optimize.minimize]. *)
Record OptimizeResult : Type := {
  x : list R;
  success : bool;
  status : Z;
  message : string
}.

(** [scipy.optimize.minimize(fun, x0, method=..., jac=...)] as a black
    box. *)
Definition Minimizer : Type :=
  (list R -> res R) -> list R -> (list R -> res (list R)) -> string ->
  res OptimizeResult.

(** ** The state monad of the methods *)

Record world : Type := World {
  self : WeakLogisticRegression;
  np_random : RandomState;
  stdout : list printed
}.

Definition M (A : Type) : Type := world -> res A * world.

Definition ret {A : Type} (a : A) : M A := fun w => (Ok a, w).

Definition bind {A B : Type} (m : M A) (k : A -> M B) : M B :=
  fun w =>
    match m w with
    | (Ok a, w') => k a w'
    | (Raise e, w') => (Raise e, w')
    end.

Definition lift {A : Type} (r : res A) : M A := fun w => (r, w).

Declare Scope m_scope.
Delimit Scope m_scope with M.
Notation "x <- m ;; k" := (bind m (fun x => k))
  (at level 61, m at next level, right associativity) : m_scope.
Notation "m ;;; k" := (bind m (fun _ => k))
  (at level 61, right associativity) : m_scope.

Definition get_self : M WeakLogisticRegression := fun w => (Ok (self w), w).

Definition set_n_dim (d : nat) : M unit :=
  fun w =>
    let s := self w in
    (Ok tt,
     World {| sound := sound s; params := params s; method := method s;
              optimizer := optimizer s; n_classes := n_classes s;
              classes_ := classes_ s; n_dim := Some d; W := W s |}
           (np_random w) (stdout w)).

Definition set_W (A : ndarray) : M unit :=
  fun w =>
    let s := self w in
    (Ok tt,
     World {| sound := sound s; params := params s; method := method s;
              optimizer := optimizer s; n_classes := n_classes s;
              classes_ := classes_ s; n_dim := n_dim s; W := Some A |}
           (np_random w) (stdout w)).

(** [print v] *)
Definition print (v : printed) : M unit :=
  fun w => (Ok tt, World (self w) (np_random w) (stdout w ++ [v])).

(** [np.random.randn(n)] *)
Definition randn1 (n : nat) : M (list R) :=
  fun w =>
    let (v, g) := draw n (np_random w) in
    (Ok v, World (self w) g (stdout w)).

(** [np.random.randn(d, c)] *)
Definition randn2 (d c : nat) : M ndarray :=
  (v <- randn1 (d * c) ;; ret (reshape2 d c v))%M.

(** [for n in l: s = body(n, s)] *)
Fixpoint for_loop {S : Type} (l : list nat) (body : nat -> S -> res S)
  (s : S) : res S :=
  match l with
  | [] => Ok s
  | n :: l' => (s' <- body n s ;; for_loop l' body s')%res
  end.

(** [range(n)] *)
Definition range (n : Z) : list nat := seq 0 (Z.to_nat n).

(** ** The numeric transforms *)

(** [softmax(self, x)]:
    [z = x - np.max(x, axis=1, keepdims=True)], [p = np.exp(z)],
    [p = p / np.sum(p, axis=1, keepdims=True)]. *)
Definition softmax (x0 : ndarray) : res ndarray :=
  (m <- amax1 x0 ;;
   let z := colop Rminus x0 m in
   let p := emap exp z in
   Ok (colop Rdiv p (sum1 p)))%res.

(** [logsoftmax(self, x)]:
    [z = x - np.max(x, axis=1, keepdims=True)],
    [logp = z - np.log(np.sum(np.exp(z), axis=1, keepdims=True))]. *)
Definition logsoftmax (x0 : ndarray) : res ndarray :=
  (m <- amax1 x0 ;;
   let z := colop Rminus x0 m in
   Ok (colop Rminus z (map ln (sum1 (emap exp z)))))%res.

(** An index into an axis of size [dim], as numpy's indexing reads it:
    a negative index counts from the end, and an index outside
    [-dim, dim) raises [IndexError]. *)
Definition norm_index (dim : nat) (k : Z) : res nat :=
  if ((0 <=? k) && (k <? Z.of_nat dim))%Z then Ok (Z.to_nat k)
  else if ((- Z.of_nat dim <=? k) && (k <? 0))%Z
       then Ok (Z.to_nat (k + Z.of_nat dim))
       else Raise IndexError.

(** [r[j] = v] on a row. *)
Fixpoint set_nth (j : nat) (v : R) (r : list R) : list R :=
  match r, j with
  | [], _ => []
  | _ :: r', O => v :: r'
  | a :: r', S j' => a :: set_nth j' v r'
  end.

(** [index2bin(self, vector, dim)]:
    [n = vector.shape[0]], [v_bin = np.zeros((n, dim))],
    [v_bin[np.arange(n), vector] = 1]. *)
Definition index2bin (vector : list Z) (dim : nat) : res ndarray :=
  let n := length vector in
  let v_bin := zeros n dim in
  (idx <- mapM (norm_index dim) vector ;;
   Ok (NDArray dim (map2 (fun r j => set_nth j 1 r) (rows v_bin) idx)))%res.

(** [sp.equal(Z, m)] against the (n, 1) array [m]: a boolean array. *)
Definition equal_col (Z0 : ndarray) (m : list R) : list (list bool) :=
  map2 (fun r mi => map (fun z => if Req_dec_T z mi then true else false) r)
       (rows Z0) m.

(** [np.sum] of a row of booleans: an integer. *)
Definition count_true (r : list bool) : Z :=
  fold_right (fun b acc => (Z.b2z b + acc)%Z) 0%Z r.

(** [hardmax(self, Z)]:
    [D = sp.equal(Z, np.max(Z, axis=1, keepdims=True))],
    [D = D/np.sum(D, axis=1, keepdims=True)].
    [D] is a boolean array and [np.sum] of it is an integer array.  The
    module is Python 2 (the [print] statements of [fit]) and does not
    import [division] from [__future__], so [/] between these two arrays
    is numpy's [divide] on integer operands, which is floor division
    ([Z.div]; like numpy, it gives 0 for a zero divisor).  The integer
    result is read as a real by the floating-point operations that use
    it. *)
Definition hardmax (Z0 : ndarray) : res ndarray :=
  (m <- amax1 Z0 ;;
   let D := equal_col Z0 m in
   let k := map count_true D in
   Ok (NDArray (ncols Z0)
         (map2 (fun r ki => map (fun b => IZR (Z.b2z b / ki)) r) D k)))%res.

(** [np.argmax] of a row: the first index of the maximum. *)
Fixpoint argmax_from (r : list R) (i best : nat) (bv : R) : nat :=
  match r with
  | [] => best
  | a :: r' =>
      if Rlt_dec bv a then argmax_from r' (S i) i a
      else argmax_from r' (S i) best bv
  end.

Definition argmax (r : list R) : nat :=
  match r with
  | [] => O
  | a :: r' => argmax_from r' 1 0 a
  end.

(** ** The methods of [WeakLogisticRegression] *)

Definition is_OSL (s : WeakLogisticRegression) : bool :=
  String.eqb (method s) "OSL".

(** [logLoss(self, w, X, T)] *)
Definition logLoss (s : WeakLogisticRegression) (w : list R)
  (X T : ndarray) : res R :=
  let n_dim0 := ncols X in
  let W2 := reshape2 n_dim0 (n_classes s) w in
  (logp <- logsoftmax (dot X W2) ;;
   if is_OSL s then
     let p := emap exp logp in
     D <- hardmax (ewise Rmult T p) ;;
     Ok (- sum_all (ewise Rmult D logp))
   else
     Ok (- sum_all (ewise Rmult T logp)))%res.

(** [gradLogLoss(self, w, X, T)] *)
Definition gradLogLoss (s : WeakLogisticRegression) (w : list R)
  (X T : ndarray) : res (list R) :=
  let n_dim0 := ncols X in
  let W2 := reshape2 n_dim0 (n_classes s) w in
  (p <- softmax (dot X W2) ;;
   G <- (if is_OSL s then
           D <- hardmax (ewise Rmult T p) ;;
           Ok (dot (transpose X) (ewise Rminus p D))
         else
           Ok (dot (transpose X) (ewise Rminus p T))) ;;
   Ok (ravel G))%res.

(** [self.params[key]]: subscripting [None] raises [TypeError]. *)
Definition getitem_params (s : WeakLogisticRegression) : res Params :=
  match params s with
  | Some p => Ok p
  | None => Raise TypeError
  end.

(** The body of the loop of [gd]. *)
Definition gd_body (s : WeakLogisticRegression) (X T : ndarray)
  (n : nat) (W0 : ndarray) : res ndarray :=
  let n_dim0 := ncols X in
  let w1 := ravel W0 in
  (g <- gradLogLoss s w1 X T ;;
   let G := reshape2 n_dim0 (n_classes s) g in
   p <- getitem_params s ;;
   Ok (ewise Rminus W0 (scal (rho p) G)))%res.

(** [gd(self, X, T)] *)
Definition gd (X T : ndarray) : M ndarray :=
  (s <- get_self ;;
   let n_dim0 := ncols X in
   W0 <- randn2 n_dim0 (n_classes s) ;;
   p <- lift (getitem_params s) ;;
   lift (for_loop (range (n_it p)) (gd_body s X T) W0))%M.

(** The body of the loop of [gd2]. *)
Definition gd2_body (s : WeakLogisticRegression) (X T : ndarray)
  (n : nat) (W0 : ndarray) : res ndarray :=
  (p <- softmax (dot X W0) ;;
   if is_OSL s then
     D <- hardmax (ewise Rmult T p) ;;
     pr <- getitem_params s ;;
     Ok (ewise Rplus W0 (scal (rho pr) (dot (transpose X) (ewise Rminus D p))))
   else
     pr <- getitem_params s ;;
     Ok (ewise Rplus W0 (scal (rho pr) (dot (transpose X) (ewise Rminus T p)))))%res.

(** [gd2(self, X, T)] *)
Definition gd2 (X T : ndarray) : M ndarray :=
  (s <- get_self ;;
   let n_dim0 := ncols X in
   W0 <- randn2 n_dim0 (n_classes s) ;;
   p <- lift (getitem_params s) ;;
   lift (for_loop (range (n_it p)) (gd2_body s X T) W0))%M.

(** [fit(self, X, Y)], given the implementation of
    [sp.optimize.minimize]. *)
Definition fit (minimize : Minimizer) (X : ndarray) (Y : labels)
  : M WeakLogisticRegression :=
  (set_n_dim (ncols X) ;;;
   s <- get_self ;;
   T <- match Y with
        | Y1 v => lift (index2bin v (n_classes s))
        | Y2 T0 => ret T0
        end ;;
   (if String.eqb (optimizer s) "GD" then
      W0 <- gd X T ;; set_W W0
    else if String.eqb (optimizer s) "GD2" then
      W0 <- gd2 X T ;; set_W W0
    else
      r <- randn1 (ncols X * n_classes s) ;;
      let w0 := vscale (1 / 100000) r in
      s1 <- get_self ;;
      o <- lift (minimize (fun w => logLoss s1 w X T) w0
                          (fun w => gradLogLoss s1 w X T) (optimizer s1)) ;;
      set_W (reshape2 (ncols X) (n_classes s1) (x o)) ;;;
      print (PBool (success o)) ;;;
      print (PInt (status o)) ;;;
      print (PStr (message o))) ;;;
   get_self)%M.

(** [self.W]: reading an attribute that was never assigned raises
    [AttributeError]. *)
Definition getattr_W (s : WeakLogisticRegression) : res ndarray :=
  match W s with
  | Some A => Ok A
  | None => Raise AttributeError
  end.

(** [predict(self, X)] *)
Definition predict (s : WeakLogisticRegression) (X : ndarray)
  : res (list nat) :=
  (W0 <- getattr_W s ;;
   p <- softmax (dot X W0) ;;
   Ok (map argmax (rows p)))%res.

(** [predict_proba(self, X)] *)
Definition predict_proba (s : WeakLogisticRegression) (X : ndarray)
  : res ndarray :=
  (W0 <- getattr_W s ;;
   softmax (dot X W0))%res.

(** ** Definitions used to state the specification *)

(** Softmax as the specification words it: the normalized exponentials of
    each row. *)
Definition softmax_spec (S0 : ndarray) : ndarray :=
  tab (nrows S0) (ncols S0)
      (fun i j => exp (ent S0 i j) / bigsum (ncols S0) (fun k => exp (ent S0 i k))).

(** Log-softmax as the specification words it: the logarithm of softmax. *)
Definition logsoftmax_spec (S0 : ndarray) : ndarray :=
  emap ln (softmax_spec S0).

(** [f], a scalar function of a weight vector, has at [w] the derivative
    [d] in the direction [v]. *)
Definition directional (f : list R -> res R) (w v : list R) (d : R) : Prop :=
  exists g : R -> R,
    (forall t, f (vadd w (vscale t v)) = Ok (g t)) /\
    derivable_pt_lim g 0 d.

(** [G] is the gradient of [f] at [w]: in every direction [v] the
    derivative of [f] is the inner product of [G] and [v]. *)
Definition is_gradient (f : list R -> res R) (w G : list R) : Prop :=
  length G = length w /\
  forall v, length v = length w -> directional f w v (dotp G v).

(** The weight matrix [fit] leaves in [self.W], or the exception it
    raised. *)
Definition learned (r : res WeakLogisticRegression * world)
  : res (option ndarray) :=
  match fst r with
  | Ok _ => Ok (W (self (snd r)))
  | Raise e => Raise e
  end.

(** One update [W <- W - rho*G] of gradient descent, with [G] the gradient
    that [gradLogLoss] returns at [W] ([W] is kept if it raises). *)
Definition gd_step (s : WeakLogisticRegression) (X T : ndarray)
  (W0 : ndarray) : ndarray :=
  match gradLogLoss s (ravel W0) X T, params s with
  | Ok g, Some p =>
      ewise Rminus W0 (scal (rho p) (reshape2 (ncols X) (n_classes s) g))
  | _, _ => W0
  end.

(** The unit vector [e_k] of length [n]. *)
Definition unit_vec (n k : nat) : list R :=
  map (fun i => if Nat.eqb i k then 1 else 0) (seq 0 n).

(** The linear scores [S = X.W], entry (i, j), with [W] the vector [w]
    read row-major as a matrix with [c] columns. *)
Definition scores (X : ndarray) (c : nat) (w : list R) (i j : nat) : R :=
  bigsum (ncols X) (fun k => ent X i k * nth (k * c + j) w 0).

(** The softmax probabilities of the scores, entry (i, j). *)
Definition probs (X : ndarray) (c : nat) (w : list R) (i j : nat) : R :=
  exp (scores X c w i j) / bigsum c (fun k => exp (scores X c w i k)).

(** The object [s] with its [method] attribute set to [m]. *)
Definition with_method (s : WeakLogisticRegression) (m : string)
  : WeakLogisticRegression :=
  {| sound := sound s; params := params s; method := m;
     optimizer := optimizer s; n_classes := n_classes s;
     classes_ := classes_ s; n_dim := n_dim s; W := W s |}.

(** The states in which no call of [fit] has completed: a fresh object,
    and what is left of one by calls of [fit] that raised, whatever
    happens meanwhile to the random generator and the standard output. *)
Inductive untrained : world -> Prop :=
| untrained_init (n_classes0 : nat) (method0 optimizer0 : string)
    (params0 : option Params) (sound0 : string) (g : RandomState)
    (out : list printed) :
    untrained (World (init n_classes0 method0 optimizer0 params0 sound0) g out)
| untrained_failed_fit (minimize : Minimizer) (X : ndarray) (Y : labels)
    (w : world) (e : exn) :
    untrained w -> fst (fit minimize X Y w) = Raise e ->
    untrained (snd (fit minimize X Y w))
| untrained_env (s : WeakLogisticRegression) (g g' : RandomState)
    (out out' : list printed) :
    untrained (World s g out) -> untrained (World s g' out').

(** A minimizer that gives up at once: it returns its starting point and
    reports failure. *)
Definition failing_minimizer : Minimizer :=
  fun _ x0 _ _ =>
    Ok {| x := x0; success := false; status := 2%Z;
          message := "Maximum number of iterations has been exceeded." |}.

(** The targets [fit] computes from the labels. *)
Definition targets (s : WeakLogisticRegression) (Y : labels) : res ndarray :=
  match Y with
  | Y1 v => index2bin v (n_classes s)
  | Y2 T0 => Ok T0
  end.

(** Entry [j] of [hardmax] on the row [f 0, ..., f (c-1)]. *)
Definition hardmax_entry (c : nat) (f : nat -> R) (j : nat) : R :=
  let m := rmax (map f (seq 0 c)) in
  let D := map (fun j' => if Req_dec_T (f j') m then true else false) (seq 0 c) in
  IZR (Z.b2z (if Req_dec_T (f j) m then true else false) / count_true D).

(** Two objects were constructed with the same arguments [n_classes],
    [method], [optimizer] and [params]. *)
Definition same_config (s1 s2 : WeakLogisticRegression) : Prop :=
  params s1 = params s2 /\ method s1 = method s2 /\
  n_classes s1 = n_classes s2 /\ optimizer s1 = optimizer s2.

(** Hardmax as the specification words it: in each row, 0 at the entries
    that are not maximal and 1/k at each of the k maximal entries. *)
Definition hardmax_spec (Z0 : ndarray) : ndarray :=
  NDArray (ncols Z0)
    (map (fun r =>
            let m := rmax r in
            let k := count_occ Req_dec_T r m in
            map (fun z => if Req_dec_T z m then 1 / INR k else 0) r)
         (rows Z0)).

(** The loss of OptimisticSupersetLoss as the specification words it:
    [-sum(D * logSoftmax(S))] with [S = X.W], [p = softmax(S)] and
    [D = hardmax(T * p)], the hardmax that splits the mass on ties. *)
Definition OSL_loss_spec (c : nat) (w : list R) (X T : ndarray) : R :=
  let S0 := dot X (reshape2 (ncols X) c w) in
  let p := softmax_spec S0 in
  let D := hardmax_spec (ewise Rmult T p) in
  - sum_all (ewise Rmult D (logsoftmax_spec S0)).

(** Its gradient as the specification words it: [X^T.(p - D)], flattened. *)
Definition OSL_gradient_spec (c : nat) (w : list R) (X T : ndarray)
  : list R :=
  let S0 := dot X (reshape2 (ncols X) c w) in
  let p := softmax_spec S0 in
  let D := hardmax_spec (ewise Rmult T p) in
  ravel (dot (transpose X) (ewise Rminus p D)).

(** A value of the dictionary that [get_params] returns. *)
Inductive pyvalue : Type :=
| VInt (n : nat)
| VStr (v : string)
| VParams (p : option Params).

(** [get_params(self, deep=True)]: the dictionary, as the list of its
    items. *)
Definition get_params (s : WeakLogisticRegression)
  : list (string * pyvalue) :=
  [("n_classes"%string, VInt (n_classes s));
   ("method"%string, VStr (method s));
   ("optimizer"%string, VStr (optimizer s));
   ("sound"%string, VStr (sound s));
   ("params"%string, VParams (params s))].

(** The object [s] with its [optimizer] attribute set to [o]. *)
Definition with_optimizer (s : WeakLogisticRegression) (o : string)
  : WeakLogisticRegression :=
  {| sound := sound s; params := params s; method := method s;
     optimizer := o; n_classes := n_classes s;
     classes_ := classes_ s; n_dim := n_dim s; W := W s |}.


(** The object [s] after [self.n_dim = d]. *)
Definition with_n_dim (s : WeakLogisticRegression) (d : nat)
  : WeakLogisticRegression :=
  {| sound := sound s; params := params s; method := method s;
     optimizer := optimizer s; n_classes := n_classes s;
     classes_ := classes_ s; n_dim := Some d; W := W s |}.

(** The object [s] after [self.W = A]. *)
Definition with_W (s : WeakLogisticRegression) (A : ndarray)
  : WeakLogisticRegression :=
  {| sound := sound s; params := params s; method := method s;
     optimizer := optimizer s; n_classes := n_classes s;
     classes_ := classes_ s; n_dim := n_dim s; W := Some A |}.

(** The body of the loop that [fit] runs for the optimizer of [s], when
    it is ['GD'] or ['GD2']. *)
Definition descent_body (s : WeakLogisticRegression) (X T : ndarray)
  : nat -> ndarray -> res ndarray :=
  if String.eqb (optimizer s) "GD" then gd_body s X T else gd2_body s X T.

(** The initial weight matrix of [gd] and [gd2]: the next draws of the
    generator, as a matrix with one row per column of [X]. *)
Definition initial_W (s : WeakLogisticRegression) (X : ndarray)
  (g : RandomState) : ndarray :=
  reshape2 (ncols X) (n_classes s) (fst (draw (ncols X * n_classes s) g)).

(** ** Sums *)

Lemma map2_length {A B C : Type} (f : A -> B -> C) (l : list A) (l' : list B) :
  length (map2 f l l') = Nat.min (length l) (length l').
Proof.
  revert l'; induction l as [|a l IH]; intros [|b l']; simpl; auto.
Qed.

Lemma map2_nth {A B C : Type} (f : A -> B -> C) (l : list A) (l' : list B)
  (i : nat) (da : A) (db : B) (dc : C) :
  (i < length l)%nat -> (i < length l')%nat ->
  nth i (map2 f l l') dc = f (nth i l da) (nth i l' db).
Proof.
  revert l' i; induction l as [|a l IH]; intros [|b l'] i Hl Hl'; simpl in *;
    try lia.
  destruct i; auto. apply IH; lia.
Qed.

Lemma vsum_app (l l' : list R) : vsum (l ++ l') = vsum l + vsum l'.
Proof.
  induction l as [|a l IH]; simpl.
  - lra.
  - fold (vsum (l ++ l')). fold (vsum l). rewrite IH. lra.
Qed.

Lemma vsum_cons (a : R) (l : list R) : vsum (a :: l) = a + vsum l.
Proof. reflexivity. Qed.

Lemma bigsum_0 (f : nat -> R) : bigsum 0 f = 0.
Proof. reflexivity. Qed.

Lemma bigsum_S (n : nat) (f : nat -> R) : bigsum (S n) f = bigsum n f + f n.
Proof.
  unfold bigsum. rewrite seq_S, map_app, vsum_app. simpl. lra.
Qed.

Lemma bigsum_S_front (n : nat) (f : nat -> R) :
  bigsum (S n) f = f O + bigsum n (fun i => f (S i)).
Proof.
  unfold bigsum. simpl. rewrite <- seq_shift, map_map. reflexivity.
Qed.

Lemma bigsum_ext (n : nat) (f g : nat -> R) :
  (forall i, (i < n)%nat -> f i = g i) -> bigsum n f = bigsum n g.
Proof.
  induction n as [|n IH]; intros H; [reflexivity|].
  rewrite !bigsum_S, IH, (H n) by (intros; try apply H; lia). reflexivity.
Qed.

Lemma bigsum_plus (n : nat) (f g : nat -> R) :
  bigsum n (fun i => f i + g i) = bigsum n f + bigsum n g.
Proof.
  induction n as [|n IH]; [rewrite !bigsum_0; lra|].
  rewrite !bigsum_S, IH. lra.
Qed.

Lemma bigsum_scal (n : nat) (a : R) (f : nat -> R) :
  bigsum n (fun i => a * f i) = a * bigsum n f.
Proof.
  induction n as [|n IH]; [rewrite !bigsum_0; lra|].
  rewrite !bigsum_S, IH. lra.
Qed.

Lemma bigsum_const0 (n : nat) : bigsum n (fun _ => 0) = 0.
Proof.
  induction n as [|n IH]; [reflexivity|]. rewrite bigsum_S, IH. lra.
Qed.

Lemma bigsum_swap (n m : nat) (f : nat -> nat -> R) :
  bigsum n (fun i => bigsum m (fun j => f i j)) =
  bigsum m (fun j => bigsum n (fun i => f i j)).
Proof.
  induction n as [|n IH].
  - rewrite bigsum_0. symmetry. apply bigsum_const0.
  - rewrite bigsum_S, IH, <- bigsum_plus. apply bigsum_ext; intros j _.
    rewrite bigsum_S. reflexivity.
Qed.

Lemma bigsum_pos (n : nat) (f : nat -> R) :
  (0 < n)%nat -> (forall i, 0 < f i) -> 0 < bigsum n f.
Proof.
  intros Hn Hf. induction n as [|n IH]; [lia|].
  rewrite bigsum_S. destruct n as [|n].
  - rewrite bigsum_0. specialize (Hf O). lra.
  - specialize (Hf (S n)). assert (0 < bigsum (S n) f) by (apply IH; lia). lra.
Qed.

Lemma vsum_nth (l : list R) :
  vsum l = bigsum (length l) (fun i => nth i l 0).
Proof.
  induction l as [|a l IH]; [reflexivity|].
  simpl length. rewrite bigsum_S_front. simpl. fold (vsum l). rewrite IH.
  reflexivity.
Qed.

Lemma vsum_map_seq (n : nat) (f : nat -> R) :
  vsum (map f (seq 0 n)) = bigsum n f.
Proof. reflexivity. Qed.

Lemma bigsum_add (n m : nat) (f : nat -> R) :
  bigsum (n + m) f = bigsum n f + bigsum m (fun i => f (n + i)%nat).
Proof.
  induction m as [|m IH].
  - rewrite Nat.add_0_r, bigsum_0. lra.
  - rewrite Nat.add_succ_r, !bigsum_S, IH. lra.
Qed.

Lemma bigsum_mul (n c : nat) (f : nat -> R) :
  bigsum (n * c) f = bigsum n (fun i => bigsum c (fun j => f (i * c + j)%nat)).
Proof.
  induction n as [|n IH]; [reflexivity|].
  rewrite bigsum_S, <- IH.
  replace (S n * c)%nat with (n * c + c)%nat by lia.
  apply bigsum_add.
Qed.

Lemma dotp_nth (a b : list R) (n : nat) :
  length a = n -> length b = n ->
  dotp a b = bigsum n (fun i => nth i a 0 * nth i b 0).
Proof.
  intros Ha Hb. unfold dotp. rewrite vsum_nth, map2_length, Ha, Hb, Nat.min_id.
  apply bigsum_ext; intros i Hi.
  apply (map2_nth Rmult a b i 0 0 0); lia.
Qed.

(** ** Arrays in tabulated form *)

Lemma nrows_tab (n c : nat) (f : nat -> nat -> R) : nrows (tab n c f) = n.
Proof. unfold nrows, tab; simpl. now rewrite length_map, length_seq. Qed.

Lemma ncols_tab (n c : nat) (f : nat -> nat -> R) : ncols (tab n c f) = c.
Proof. reflexivity. Qed.

Lemma nth_map_seq {A : Type} (g : nat -> A) (n i : nat) (d : A) :
  (i < n)%nat -> nth i (map g (seq 0 n)) d = g i.
Proof.
  intros Hi. rewrite (nth_indep _ d (g O)) by (now rewrite length_map, length_seq).
  rewrite (map_nth g (seq 0 n) O i), seq_nth by lia. reflexivity.
Qed.

Lemma ent_tab (n c : nat) (f : nat -> nat -> R) (i j : nat) :
  (i < n)%nat -> (j < c)%nat -> ent (tab n c f) i j = f i j.
Proof.
  intros Hi Hj. unfold ent, tab; simpl.
  rewrite (nth_map_seq (fun i => map (f i) (seq 0 c))) by assumption.
  now apply nth_map_seq.
Qed.

Lemma tab_ext (n c : nat) (f g : nat -> nat -> R) :
  (forall i j, (i < n)%nat -> (j < c)%nat -> f i j = g i j) ->
  tab n c f = tab n c g.
Proof.
  intros H. unfold tab. f_equal.
  apply map_ext_in; intros i Hi. apply in_seq in Hi.
  apply map_ext_in; intros j Hj. apply in_seq in Hj.
  apply H; lia.
Qed.

Lemma list_tab (l : list R) :
  l = map (fun j => nth j l 0) (seq 0 (length l)).
Proof.
  apply (nth_ext _ _ 0 0).
  - now rewrite length_map, length_seq.
  - intros i Hi. now rewrite nth_map_seq.
Qed.

Lemma wf_rows (A : ndarray) (r : list R) :
  wf A = true -> In r (rows A) -> length r = ncols A.
Proof.
  unfold wf. rewrite forallb_forall. intros H Hr.
  apply Nat.eqb_eq. now apply H.
Qed.

Lemma has_shape_spec (n c : nat) (A : ndarray) :
  has_shape n c A = true <-> nrows A = n /\ ncols A = c /\ wf A = true.
Proof.
  unfold has_shape. rewrite !andb_true_iff, !Nat.eqb_eq. tauto.
Qed.

Lemma has_shape_ncols_eq (n c : nat) (A : ndarray) :
  has_shape n c A = true -> ncols A = c.
Proof. intros H. apply has_shape_spec in H. tauto. Qed.

Lemma has_shape_nrows_eq (n c : nat) (A : ndarray) :
  has_shape n c A = true -> nrows A = n.
Proof. intros H. apply has_shape_spec in H. tauto. Qed.

Lemma has_shape_tab (n c : nat) (f : nat -> nat -> R) :
  has_shape n c (tab n c f) = true.
Proof.
  apply has_shape_spec. split; [apply nrows_tab|]. split; [reflexivity|].
  unfold wf, tab; simpl. apply forallb_forall. intros r Hr.
  apply in_map_iff in Hr. destruct Hr as [i [<- _]].
  rewrite length_map, length_seq. apply Nat.eqb_refl.
Qed.

(** A well-formed array is the table of its entries. *)
Lemma tab_canon (n c : nat) (A : ndarray) :
  has_shape n c A = true -> A = tab n c (ent A).
Proof.
  intros H. apply has_shape_spec in H. destruct H as [Hn [Hc Hwf]].
  destruct A as [c0 rs]; simpl in *. subst c0. unfold tab. f_equal.
  unfold nrows in Hn; simpl in Hn.
  apply (nth_ext _ _ [] []).
  - now rewrite length_map, length_seq.
  - intros i Hi. rewrite nth_map_seq by lia.
    unfold ent; simpl.
    assert (Hl : length (nth i rs []) = c).
    { apply (wf_rows (NDArray c rs)); [assumption|]. simpl. now apply nth_In. }
    rewrite <- Hl. apply list_tab.
Qed.

Lemma map2_map_same {A B C D : Type} (f : B -> C -> D) (g : A -> B)
  (h : A -> C) (l : list A) :
  map2 f (map g l) (map h l) = map (fun a => f (g a) (h a)) l.
Proof. induction l as [|a l IH]; simpl; [reflexivity|now rewrite IH]. Qed.

Lemma ewise_tab (op : R -> R -> R) (n c : nat) (f g : nat -> nat -> R) :
  ewise op (tab n c f) (tab n c g) = tab n c (fun i j => op (f i j) (g i j)).
Proof.
  unfold ewise, tab; simpl. f_equal. rewrite map2_map_same.
  apply map_ext; intros i. apply map2_map_same.
Qed.

Lemma emap_tab (op : R -> R) (n c : nat) (f : nat -> nat -> R) :
  emap op (tab n c f) = tab n c (fun i j => op (f i j)).
Proof.
  unfold emap, tab; simpl. f_equal. rewrite map_map.
  apply map_ext; intros i. apply map_map.
Qed.

Lemma scal_tab (a : R) (n c : nat) (f : nat -> nat -> R) :
  scal a (tab n c f) = tab n c (fun i j => a * f i j).
Proof. apply emap_tab. Qed.

Lemma colop_tab (op : R -> R -> R) (n c : nat) (f : nat -> nat -> R)
  (v : nat -> R) :
  colop op (tab n c f) (map v (seq 0 n)) = tab n c (fun i j => op (f i j) (v i)).
Proof.
  unfold colop, tab; simpl. f_equal. rewrite map2_map_same.
  apply map_ext; intros i. apply map_map.
Qed.

Lemma sum1_tab (n c : nat) (f : nat -> nat -> R) :
  sum1 (tab n c f) = map (fun i => bigsum c (f i)) (seq 0 n).
Proof. unfold sum1, tab; simpl. now rewrite map_map. Qed.

Lemma sum_all_tab (n c : nat) (f : nat -> nat -> R) :
  sum_all (tab n c f) = bigsum n (fun i => bigsum c (f i)).
Proof. unfold sum_all. now rewrite sum1_tab. Qed.

Lemma amax1_tab (n c : nat) (f : nat -> nat -> R) :
  c <> O ->
  amax1 (tab n c f) = Ok (map (fun i => rmax (map (f i) (seq 0 c))) (seq 0 n)).
Proof.
  intros Hc. unfold amax1. simpl ncols.
  destruct (Nat.eqb_spec c 0) as [E|_]; [contradiction|].
  unfold tab; simpl. now rewrite map_map.
Qed.

Lemma tab_S (n c : nat) (f : nat -> nat -> R) :
  tab (S n) c f =
  NDArray c (map (f O) (seq 0 c) :: rows (tab n c (fun i => f (S i)))).
Proof.
  unfold tab; simpl. do 2 f_equal. now rewrite <- seq_shift, map_map.
Qed.

Lemma firstn_tab (c : nat) (w : list R) :
  (c <= length w)%nat -> firstn c w = map (fun j => nth j w 0) (seq 0 c).
Proof.
  intros H. apply (nth_ext _ _ 0 0).
  - rewrite length_firstn, length_map, length_seq. lia.
  - intros i Hi. rewrite length_firstn in Hi.
    rewrite nth_map_seq by lia. rewrite nth_firstn.
    destruct (Nat.ltb_spec i c); [reflexivity|lia].
Qed.

Lemma reshape2_tab (d c : nat) (w : list R) :
  length w = (d * c)%nat ->
  reshape2 d c w = tab d c (fun i j => nth (i * c + j) w 0).
Proof.
  unfold reshape2. revert w. induction d as [|d IH]; intros w Hw.
  - reflexivity.
  - rewrite tab_S. simpl chunks. f_equal. f_equal.
    + apply firstn_tab. lia.
    + specialize (IH (skipn c w)).
      rewrite length_skipn in IH.
      injection (IH ltac:(lia)) as ->.
      change (map (fun i => map (fun j => nth (i * c + j) (skipn c w) 0) (seq 0 c))
                  (seq 0 d))
        with (rows (tab d c (fun i j => nth (i * c + j) (skipn c w) 0))).
      f_equal. apply tab_ext; intros i j _ _.
      rewrite nth_skipn. f_equal. lia.
Qed.

Lemma ravel_tab_S (n c : nat) (f : nat -> nat -> R) :
  ravel (tab (S n) c f) =
  map (f O) (seq 0 c) ++ ravel (tab n c (fun i => f (S i))).
Proof. rewrite tab_S. reflexivity. Qed.

Lemma length_ravel_tab (n c : nat) (f : nat -> nat -> R) :
  length (ravel (tab n c f)) = (n * c)%nat.
Proof.
  revert f; induction n as [|n IH]; intros f; [reflexivity|].
  rewrite ravel_tab_S, length_app, length_map, length_seq, IH. lia.
Qed.

Lemma reshape2_ravel_tab (n c : nat) (f : nat -> nat -> R) :
  reshape2 n c (ravel (tab n c f)) = tab n c f.
Proof.
  unfold reshape2. revert f; induction n as [|n IH]; intros f; [reflexivity|].
  rewrite ravel_tab_S, tab_S. simpl chunks. f_equal.
  assert (Hl : length (map (f O) (seq 0 c)) = c)
    by now rewrite length_map, length_seq.
  f_equal.
  - rewrite firstn_app, Hl, Nat.sub_diag, firstn_O, app_nil_r.
    apply firstn_all2. lia.
  - rewrite skipn_app, Hl, Nat.sub_diag, skipn_O.
    rewrite skipn_all2 by lia. simpl app.
    specialize (IH (fun i => f (S i))). now injection IH.
Qed.

Lemma ravel_reshape2 (n c : nat) (w : list R) :
  length w = (n * c)%nat -> ravel (reshape2 n c w) = w.
Proof.
  unfold ravel, reshape2; simpl. revert w.
  induction n as [|n IH]; intros w Hw; simpl.
  - destruct w; [reflexivity|discriminate].
  - rewrite IH by (rewrite length_skipn; lia). apply firstn_skipn.
Qed.

Lemma dotp_app (a a' b b' : list R) :
  length a = length b -> dotp (a ++ a') (b ++ b') = dotp a b + dotp a' b'.
Proof.
  unfold dotp. revert b; induction a as [|u a IH]; intros [|v b] H;
    simpl in *; try discriminate.
  - lra.
  - fold (vsum (map2 Rmult (a ++ a') (b ++ b'))).
    fold (vsum (map2 Rmult a b)).
    rewrite IH by lia. lra.
Qed.

Lemma dotp_ravel_tab (n c : nat) (f g : nat -> nat -> R) :
  dotp (ravel (tab n c f)) (ravel (tab n c g)) =
  bigsum n (fun i => bigsum c (fun j => f i j * g i j)).
Proof.
  revert f g; induction n as [|n IH]; intros f g; [reflexivity|].
  rewrite !ravel_tab_S, dotp_app by now rewrite !length_map.
  rewrite bigsum_S_front, IH. f_equal.
  unfold dotp. rewrite map2_map_same. reflexivity.
Qed.

Lemma dotp_ravel_vec (n c : nat) (f : nat -> nat -> R) (v : list R) :
  length v = (n * c)%nat ->
  dotp (ravel (tab n c f)) v =
  bigsum n (fun i => bigsum c (fun j => f i j * nth (i * c + j) v 0)).
Proof.
  intros Hv.
  transitivity (dotp (ravel (tab n c f)) (ravel (reshape2 n c v))).
  - now rewrite ravel_reshape2.
  - rewrite reshape2_tab by assumption. apply dotp_ravel_tab.
Qed.

Lemma ent_dot (A B : ndarray) (i j : nat) :
  (i < nrows A)%nat -> (j < ncols B)%nat ->
  ent (dot A B) i j = bigsum (ncols A) (fun k => ent A i k * ent B k j).
Proof. intros Hi Hj. unfold dot. now rewrite ent_tab. Qed.

Lemma dot_tab (n d c : nat) (f g : nat -> nat -> R) :
  dot (tab n d f) (tab d c g) =
  tab n c (fun i j => bigsum d (fun k => f i k * g k j)).
Proof.
  unfold dot. rewrite nrows_tab, !ncols_tab.
  apply tab_ext; intros i j Hi Hj. apply bigsum_ext; intros k Hk.
  now rewrite !ent_tab.
Qed.

Lemma transpose_tab (n d : nat) (f : nat -> nat -> R) :
  transpose (tab n d f) = tab d n (fun j i => f i j).
Proof.
  unfold transpose. rewrite nrows_tab, ncols_tab.
  apply tab_ext; intros j i Hj Hi. now rewrite ent_tab.
Qed.

(** ** Softmax and log-softmax *)

Lemma sumexp_pos (c : nat) (g : nat -> R) :
  c <> O -> 0 < bigsum c (fun k => exp (g k)).
Proof. intros Hc. apply bigsum_pos; [lia|]. intros i. apply exp_pos. Qed.

Lemma sumexp_shift (c : nat) (g : nat -> R) (m : R) :
  bigsum c (fun k => exp (g k - m)) = exp (- m) * bigsum c (fun k => exp (g k)).
Proof.
  rewrite <- bigsum_scal. apply bigsum_ext; intros k _.
  unfold Rminus. rewrite exp_plus. lra.
Qed.

(** The shift by the row maximum does not change the value of softmax. *)
Lemma softmax_shift (c : nat) (g : nat -> R) (a m : R) :
  c <> O ->
  exp (a - m) / bigsum c (fun k => exp (g k - m)) =
  exp a / bigsum c (fun k => exp (g k)).
Proof.
  intros Hc. rewrite sumexp_shift. unfold Rminus at 1. rewrite exp_plus.
  pose proof (sumexp_pos c g Hc). pose proof (exp_pos (- m)).
  field. split; lra.
Qed.

Lemma logsoftmax_shift (c : nat) (g : nat -> R) (a m : R) :
  c <> O ->
  a - m - ln (bigsum c (fun k => exp (g k - m))) =
  a - ln (bigsum c (fun k => exp (g k))).
Proof.
  intros Hc. rewrite sumexp_shift.
  rewrite ln_mult by (try apply exp_pos; now apply sumexp_pos).
  rewrite ln_exp. lra.
Qed.

Lemma softmax_tab (n c : nat) (f : nat -> nat -> R) :
  c <> O ->
  softmax (tab n c f) =
  Ok (tab n c (fun i j => exp (f i j) / bigsum c (fun k => exp (f i k)))).
Proof.
  intros Hc. unfold softmax. rewrite amax1_tab by assumption. simpl rbind.
  rewrite colop_tab, emap_tab, sum1_tab, colop_tab. f_equal.
  apply tab_ext; intros i j _ _.
  now apply (softmax_shift c (f i)).
Qed.

Lemma logsoftmax_tab (n c : nat) (f : nat -> nat -> R) :
  c <> O ->
  logsoftmax (tab n c f) =
  Ok (tab n c (fun i j => f i j - ln (bigsum c (fun k => exp (f i k))))).
Proof.
  intros Hc. unfold logsoftmax. rewrite amax1_tab by assumption. simpl rbind.
  rewrite colop_tab, emap_tab, sum1_tab, map_map, colop_tab. f_equal.
  apply tab_ext; intros i j _ _.
  now apply (logsoftmax_shift c (f i)).
Qed.

Lemma softmax_spec_tab (n c : nat) (f : nat -> nat -> R) :
  softmax_spec (tab n c f) =
  tab n c (fun i j => exp (f i j) / bigsum c (fun k => exp (f i k))).
Proof.
  unfold softmax_spec. rewrite nrows_tab, ncols_tab.
  apply tab_ext; intros i j Hi Hj. rewrite ent_tab by assumption.
  f_equal. apply bigsum_ext; intros k Hk. now rewrite ent_tab.
Qed.

Lemma ln_softmax_entry (c : nat) (g : nat -> R) (a : R) :
  c <> O ->
  ln (exp a / bigsum c (fun k => exp (g k))) =
  a - ln (bigsum c (fun k => exp (g k))).
Proof.
  intros Hc. pose proof (sumexp_pos c g Hc).
  unfold Rdiv. rewrite ln_mult by (try apply exp_pos; now apply Rinv_0_lt_compat).
  rewrite ln_exp, ln_Rinv by assumption. lra.
Qed.

Lemma exp_logsoftmax_entry (c : nat) (g : nat -> R) (a : R) :
  c <> O ->
  exp (a - ln (bigsum c (fun k => exp (g k)))) =
  exp a / bigsum c (fun k => exp (g k)).
Proof.
  intros Hc. pose proof (sumexp_pos c g Hc).
  unfold Rminus. rewrite exp_plus, exp_Ropp, exp_ln by assumption.
  reflexivity.
Qed.

(** On an array with at least one column [softmax] returns, and returns
    what the specification describes. *)
Lemma softmax_ok (n c : nat) (A : ndarray) :
  has_shape n c A = true -> c <> O -> softmax A = Ok (softmax_spec A).
Proof.
  intros H Hc. rewrite (tab_canon n c A H) at 1 2.
  rewrite softmax_tab, softmax_spec_tab by assumption. reflexivity.
Qed.

(** [logsoftmax] returns the logarithm of softmax. *)
Lemma logsoftmax_ok (n c : nat) (A : ndarray) :
  has_shape n c A = true -> c <> O -> logsoftmax A = Ok (logsoftmax_spec A).
Proof.
  intros H Hc. unfold logsoftmax_spec. rewrite (tab_canon n c A H) at 1 2.
  rewrite logsoftmax_tab, softmax_spec_tab, emap_tab by assumption. f_equal.
  apply tab_ext; intros i j _ _. symmetry.
  now apply (ln_softmax_entry c (ent A i)).
Qed.

(** In [logLoss], [p = np.exp(logp)] is softmax. *)
Lemma exp_logsoftmax_spec (n c : nat) (A : ndarray) :
  has_shape n c A = true -> c <> O ->
  emap exp (logsoftmax_spec A) = softmax_spec A.
Proof.
  intros H Hc. unfold logsoftmax_spec. rewrite (tab_canon n c A H).
  rewrite softmax_spec_tab, !emap_tab.
  apply tab_ext; intros i j _ _.
  rewrite (ln_softmax_entry c (ent A i)) by assumption.
  now apply exp_logsoftmax_entry.
Qed.

Lemma has_shape_softmax_spec (n c : nat) (A : ndarray) :
  has_shape n c A = true -> has_shape n c (softmax_spec A) = true.
Proof.
  intros H. apply has_shape_spec in H. destruct H as [Hn [Hc _]].
  unfold softmax_spec. rewrite Hn, Hc. apply has_shape_tab.
Qed.

Lemma has_shape_dot (A B : ndarray) :
  has_shape (nrows A) (ncols B) (dot A B) = true.
Proof. apply has_shape_tab. Qed.

Lemma has_shape_reshape2 (d c : nat) (w : list R) :
  length w = (d * c)%nat -> has_shape d c (reshape2 d c w) = true.
Proof. intros H. rewrite reshape2_tab by assumption. apply has_shape_tab. Qed.

(** ** Derivatives along a line *)

Lemma deriv_affine (a b x0 : R) :
  derivable_pt_lim (fun t => (a + t * b)%R) x0 b.
Proof.
  apply derivable_pt_lim_ext with (f := (fct_cte a + id * fct_cte b)%F).
  - intros t. reflexivity.
  - replace b with (0 + (1 * fct_cte b x0 + id x0 * 0)) at 2
      by (unfold fct_cte, id; ring).
    apply derivable_pt_lim_plus; [apply derivable_pt_lim_const|].
    apply derivable_pt_lim_mult;
      [apply derivable_pt_lim_id|apply derivable_pt_lim_const].
Qed.

Lemma deriv_bigsum (n : nat) (F : nat -> R -> R) (F' : nat -> R) (x0 : R) :
  (forall i, (i < n)%nat -> derivable_pt_lim (F i) x0 (F' i)) ->
  derivable_pt_lim (fun t => bigsum n (fun i => F i t)) x0 (bigsum n F').
Proof.
  induction n as [|n IH]; intros H.
  - apply derivable_pt_lim_ext with (f := fct_cte 0); [reflexivity|].
    rewrite bigsum_0. apply derivable_pt_lim_const.
  - apply derivable_pt_lim_ext
      with (f := ((fun t => bigsum n (fun i => F i t)) + F n)%F).
    + intros t. unfold plus_fct. now rewrite bigsum_S.
    + rewrite bigsum_S. apply derivable_pt_lim_plus.
      * apply IH. intros i Hi. apply H. lia.
      * apply H. lia.
Qed.

Lemma deriv_exp_affine (a b x0 : R) :
  derivable_pt_lim (fun t => exp (a + t * b)) x0 (b * exp (a + x0 * b)).
Proof.
  apply derivable_pt_lim_ext with (f := comp exp (fun t => (a + t * b)%R)).
  - intros t. reflexivity.
  - rewrite Rmult_comm. apply derivable_pt_lim_comp.
    + apply deriv_affine.
    + apply derivable_pt_lim_exp.
Qed.

Lemma deriv_sumexp (c : nat) (s u : nat -> R) (x0 : R) :
  derivable_pt_lim (fun t => bigsum c (fun k => exp (s k + t * u k))) x0
    (bigsum c (fun k => u k * exp (s k + x0 * u k))).
Proof.
  apply (deriv_bigsum c (fun k t => exp (s k + t * u k))).
  intros k _. apply deriv_exp_affine.
Qed.

Lemma deriv_lse (c : nat) (s u : nat -> R) (x0 : R) :
  c <> O ->
  derivable_pt_lim (fun t => ln (bigsum c (fun k => exp (s k + t * u k)))) x0
    (bigsum c (fun k => u k * exp (s k + x0 * u k)) /
     bigsum c (fun k => exp (s k + x0 * u k))).
Proof.
  intros Hc.
  apply derivable_pt_lim_ext
    with (f := comp ln (fun t => bigsum c (fun k => exp (s k + t * u k)))).
  - intros t. reflexivity.
  - unfold Rdiv. rewrite Rmult_comm. apply derivable_pt_lim_comp.
    + apply deriv_sumexp.
    + apply derivable_pt_lim_ln.
      apply (sumexp_pos c (fun k => s k + x0 * u k) Hc).
Qed.

(** The derivative of one row of the cross-entropy
    [sum_j tau_j * logsoftmax(s + t*u)_j]. *)
Lemma deriv_row (c : nat) (tau s u : nat -> R) (x0 : R) :
  c <> O ->
  derivable_pt_lim
    (fun t => bigsum c (fun j =>
       tau j * (s j + t * u j - ln (bigsum c (fun k => exp (s k + t * u k))))))
    x0
    (bigsum c (fun j =>
       tau j * (u j - bigsum c (fun k => u k * exp (s k + x0 * u k)) /
                      bigsum c (fun k => exp (s k + x0 * u k))))).
Proof.
  intros Hc.
  apply (deriv_bigsum c
    (fun j t => tau j * (s j + t * u j - ln (bigsum c (fun k => exp (s k + t * u k)))))).
  intros j _.
  apply derivable_pt_lim_ext
    with (f := mult_real_fct (tau j)
                 ((fun t => (s j + t * u j)%R) -
                  (fun t => ln (bigsum c (fun k => exp (s k + t * u k)))))%F).
  - intros t. reflexivity.
  - apply derivable_pt_lim_scal. apply derivable_pt_lim_minus.
    + apply deriv_affine.
    + now apply deriv_lse.
Qed.

Lemma deriv_loss (n c : nat) (tau s u : nat -> nat -> R) (x0 : R) :
  c <> O ->
  derivable_pt_lim
    (fun t => - bigsum n (fun i => bigsum c (fun j =>
       tau i j * (s i j + t * u i j -
                  ln (bigsum c (fun k => exp (s i k + t * u i k)))))))
    x0
    (- bigsum n (fun i => bigsum c (fun j =>
       tau i j * (u i j - bigsum c (fun k => u i k * exp (s i k + x0 * u i k)) /
                          bigsum c (fun k => exp (s i k + x0 * u i k)))))).
Proof.
  intros Hc.
  apply derivable_pt_lim_ext
    with (f := opp_fct (fun t => bigsum n (fun i => bigsum c (fun j =>
       tau i j * (s i j + t * u i j -
                  ln (bigsum c (fun k => exp (s i k + t * u i k)))))))).
  - intros t. reflexivity.
  - apply derivable_pt_lim_opp.
    apply (deriv_bigsum n (fun i t => bigsum c (fun j =>
       tau i j * (s i j + t * u i j -
                  ln (bigsum c (fun k => exp (s i k + t * u i k))))))).
    intros i _. now apply deriv_row.
Qed.

(** ** Scores, sums and shapes *)

Lemma bigsum_scal_r (n : nat) (a : R) (f : nat -> R) :
  bigsum n (fun i => f i * a) = bigsum n f * a.
Proof.
  rewrite Rmult_comm, <- bigsum_scal. apply bigsum_ext; intros; ring.
Qed.

Lemma bigsum_opp (n : nat) (f : nat -> R) :
  bigsum n (fun i => - f i) = - bigsum n f.
Proof.
  replace (- bigsum n f) with (-1 * bigsum n f) by ring.
  rewrite <- bigsum_scal. apply bigsum_ext; intros; ring.
Qed.

Lemma nth_map_R (g : R -> R) (l : list R) (i : nat) :
  (i < length l)%nat -> nth i (map g l) 0 = g (nth i l 0).
Proof.
  intros Hi. rewrite (nth_indep _ 0 (g 0)) by now rewrite length_map.
  apply map_nth.
Qed.

Lemma nth_line (w v : list R) (t : R) (i : nat) :
  (i < length w)%nat -> (i < length v)%nat ->
  nth i (vadd w (vscale t v)) 0 = nth i w 0 + t * nth i v 0.
Proof.
  intros Hw Hv. unfold vadd, vscale.
  rewrite (map2_nth Rplus w (map (Rmult t) v) i 0 0 0)
    by (try rewrite length_map; assumption).
  now rewrite nth_map_R.
Qed.

Lemma length_line (w v : list R) (t : R) :
  length v = length w -> length (vadd w (vscale t v)) = length w.
Proof.
  intros H. unfold vadd, vscale. rewrite map2_length, length_map, H.
  apply Nat.min_id.
Qed.

Lemma index_in_range (d c k j : nat) :
  (k < d)%nat -> (j < c)%nat -> (k * c + j < d * c)%nat.
Proof. intros Hk Hj. nia. Qed.

(** The scores are linear in the weights. *)
Lemma scores_line (X : ndarray) (c : nat) (w v : list R) (t : R) (i j : nat) :
  length w = (ncols X * c)%nat -> length v = (ncols X * c)%nat ->
  (j < c)%nat ->
  scores X c (vadd w (vscale t v)) i j =
  scores X c w i j + t * scores X c v i j.
Proof.
  intros Hw Hv Hj. unfold scores.
  rewrite <- bigsum_scal, <- bigsum_plus. apply bigsum_ext; intros k Hk.
  pose proof (index_in_range (ncols X) c k j Hk Hj).
  rewrite nth_line by lia. ring.
Qed.

Lemma dot_reshape2 (n d c : nat) (X : ndarray) (w : list R) :
  has_shape n d X = true -> length w = (d * c)%nat ->
  dot X (reshape2 d c w) = tab n c (scores X c w).
Proof.
  intros HX Hw. pose proof HX as HX'. apply has_shape_spec in HX'.
  destruct HX' as [Hn [Hd _]].
  unfold dot. rewrite Hn. simpl ncols. apply tab_ext; intros i j Hi Hj.
  unfold scores. apply bigsum_ext; intros k Hk. f_equal.
  rewrite reshape2_tab by assumption. rewrite ent_tab by lia. reflexivity.
Qed.

Lemma adjoint_sum (n c d : nat) (Mf Xf Vf : nat -> nat -> R) :
  bigsum n (fun i => bigsum c (fun j =>
    Mf i j * bigsum d (fun k => Xf i k * Vf k j))) =
  bigsum d (fun k => bigsum c (fun j =>
    bigsum n (fun i => Xf i k * Mf i j) * Vf k j)).
Proof.
  transitivity (bigsum n (fun i => bigsum d (fun k => bigsum c (fun j =>
                  Mf i j * Xf i k * Vf k j)))).
  { apply bigsum_ext; intros i _.
    rewrite (bigsum_swap d c (fun k j => Mf i j * Xf i k * Vf k j)).
    apply bigsum_ext; intros j _. rewrite <- bigsum_scal.
    apply bigsum_ext; intros k _. ring. }
  rewrite (bigsum_swap n d (fun i k => bigsum c (fun j => Mf i j * Xf i k * Vf k j))).
  apply bigsum_ext; intros k _.
  rewrite (bigsum_swap n c (fun i j => Mf i j * Xf i k * Vf k j)).
  apply bigsum_ext; intros j _. rewrite <- bigsum_scal_r.
  apply bigsum_ext; intros i _. ring.
Qed.

(** The value of the derivative of the loss: the rows of the targets enter
    through their sums. *)
Lemma loss_derivative_value (n c : nat) (tau S0 U : nat -> nat -> R) :
  - bigsum n (fun i => bigsum c (fun j =>
      tau i j * (U i j - bigsum c (fun k => U i k * exp (S0 i k + 0 * U i k)) /
                         bigsum c (fun k => exp (S0 i k + 0 * U i k))))) =
  bigsum n (fun i => bigsum c (fun j =>
      (bigsum c (tau i) *
       (exp (S0 i j) / bigsum c (fun k => exp (S0 i k))) - tau i j) * U i j)).
Proof.
  rewrite <- bigsum_opp. apply bigsum_ext; intros i _.
  assert (E1 : bigsum c (fun k => exp (S0 i k + 0 * U i k)) =
               bigsum c (fun k => exp (S0 i k))).
  { apply bigsum_ext; intros k _. f_equal. ring. }
  assert (E2 : bigsum c (fun k => U i k * exp (S0 i k + 0 * U i k)) =
               bigsum c (fun k => U i k * exp (S0 i k))).
  { apply bigsum_ext; intros k _. do 2 f_equal. ring. }
  rewrite E1, E2.
  set (E := bigsum c (fun k => exp (S0 i k))).
  set (A := bigsum c (fun k => U i k * exp (S0 i k))).
  transitivity (- bigsum c (fun j => tau i j * U i j) + bigsum c (tau i) * (A / E)).
  - rewrite <- !bigsum_opp, <- bigsum_scal_r, <- bigsum_plus.
    apply bigsum_ext; intros j _. ring.
  - transitivity
      (bigsum c (fun j => - (tau i j * U i j)) +
       bigsum c (fun k => bigsum c (tau i) * (U i k * exp (S0 i k) * / E))).
    + rewrite bigsum_opp, bigsum_scal, bigsum_scal_r. reflexivity.
    + rewrite <- bigsum_plus.
      apply bigsum_ext; intros j _. unfold Rdiv. ring.
Qed.

Lemma row_sums_ent (n c : nat) (T : ndarray) (i : nat) :
  has_shape n c T = true -> Forall (fun r => vsum r = 1) (rows T) ->
  (i < n)%nat -> bigsum c (ent T i) = 1.
Proof.
  intros HT Hs Hi. apply has_shape_spec in HT. destruct HT as [Hn [Hc Hwf]].
  unfold nrows in Hn.
  assert (Hin : In (nth i (rows T) []) (rows T)) by (apply nth_In; lia).
  rewrite Forall_forall in Hs. specialize (Hs _ Hin).
  rewrite vsum_nth, (wf_rows T _ Hwf Hin), Hc in Hs. exact Hs.
Qed.

Lemma shape_scores (s : WeakLogisticRegression) (n d : nat)
  (w : list R) (X : ndarray) :
  has_shape n d X = true -> length w = (d * n_classes s)%nat ->
  has_shape n (n_classes s) (dot X (reshape2 d (n_classes s) w)) = true.
Proof.
  intros HX Hw. rewrite (dot_reshape2 n d _ X w HX Hw). apply has_shape_tab.
Qed.

Lemma probs_pos (X : ndarray) (c : nat) (w : list R) (i j : nat) :
  c <> O -> 0 < probs X c w i j.
Proof.
  intros Hc. unfold probs. apply Rdiv_lt_0_compat; [apply exp_pos|].
  now apply (sumexp_pos c (fun k => scores X c w i k)).
Qed.

Lemma softmax_spec_scores (n d c : nat) (X : ndarray) (w : list R) :
  has_shape n d X = true -> length w = (d * c)%nat ->
  softmax_spec (dot X (reshape2 d c w)) = tab n c (probs X c w).
Proof.
  intros HX Hw. rewrite (dot_reshape2 n d c X w HX Hw).
  apply softmax_spec_tab.
Qed.

Lemma ewise_canon (op : R -> R -> R) (n c : nat) (A B : ndarray) :
  has_shape n c A = true -> has_shape n c B = true ->
  ewise op A B = tab n c (fun i j => op (ent A i j) (ent B i j)).
Proof.
  intros HA HB.
  transitivity (ewise op (tab n c (ent A)) (tab n c (ent B))).
  - now rewrite <- (tab_canon n c A HA), <- (tab_canon n c B HB).
  - apply ewise_tab.
Qed.

Lemma sum1_canon (n c : nat) (A : ndarray) :
  has_shape n c A = true ->
  sum1 A = map (fun i => bigsum c (ent A i)) (seq 0 n).
Proof.
  intros HA. transitivity (sum1 (tab n c (ent A))).
  - now rewrite <- (tab_canon n c A HA).
  - apply sum1_tab.
Qed.

Lemma dot_transpose_canon (n d c : nat) (X A : ndarray) :
  has_shape n d X = true -> has_shape n c A = true ->
  dot (transpose X) A =
  tab d c (fun k j => bigsum n (fun i => ent X i k * ent A i j)).
Proof.
  intros HX HA.
  transitivity (dot (transpose (tab n d (ent X))) (tab n c (ent A))).
  - now rewrite <- (tab_canon n d X HX), <- (tab_canon n c A HA).
  - rewrite transpose_tab. apply dot_tab.
Qed.

(** ** Loss and gradient in StandardWeak mode *)

Section StandardWeak.

Variable s : WeakLogisticRegression.
Variables n d : nat.
Variables X T : ndarray.

Hypothesis Hm : is_OSL s = false.
Hypothesis Hc : n_classes s <> O.
Hypothesis HX : has_shape n d X = true.
Hypothesis HT : has_shape n (n_classes s) T = true.

Local Abbreviation c := (n_classes s).

Lemma logLoss_WL_value (w : list R) :
  length w = (d * c)%nat ->
  logLoss s w X T =
  Ok (- bigsum n (fun i => bigsum c (fun j =>
        ent T i j * (scores X c w i j -
                     ln (bigsum c (fun k => exp (scores X c w i k))))))).
Proof using Hm Hc HX HT.
  intros Hw. unfold logLoss. rewrite Hm, (has_shape_ncols_eq n d X HX).
  rewrite (dot_reshape2 n d c X w HX Hw).
  rewrite logsoftmax_tab by assumption. simpl rbind.
  rewrite (ewise_canon Rmult n c) by first [assumption|apply has_shape_tab].
  rewrite sum_all_tab. do 2 f_equal.
  apply bigsum_ext; intros i Hi. apply bigsum_ext; intros j Hj.
  now rewrite ent_tab.
Qed.

Lemma gradLogLoss_WL_value (w : list R) :
  length w = (d * c)%nat ->
  gradLogLoss s w X T =
  Ok (ravel (tab d c (fun k j =>
        bigsum n (fun i => ent X i k * (probs X c w i j - ent T i j))))).
Proof using Hm Hc HX HT.
  intros Hw. unfold gradLogLoss. rewrite Hm, (has_shape_ncols_eq n d X HX).
  rewrite (dot_reshape2 n d c X w HX Hw).
  rewrite softmax_tab by assumption. simpl rbind.
  rewrite (ewise_canon Rminus n c) by first [assumption|apply has_shape_tab].
  rewrite (dot_transpose_canon n d c X) by first [assumption|apply has_shape_tab].
  do 2 f_equal. apply tab_ext; intros k j Hk Hj.
  apply bigsum_ext; intros i Hi. now rewrite !ent_tab.
Qed.

(** The gradient of the loss of StandardWeak mode, for arbitrary targets:
    the probabilities are weighted by the sums of the rows of [T]. *)
Lemma logLoss_gradient_tab (w : list R) :
  length w = (d * c)%nat ->
  is_gradient (fun w' => logLoss s w' X T) w
    (ravel (tab d c (fun k j =>
       bigsum n (fun i =>
         ent X i k * (probs X c w i j * bigsum c (ent T i) - ent T i j))))).
Proof using Hm Hc HX HT.
  intros Hw.
  pose proof (has_shape_ncols_eq n d X HX) as Hd.
  split; [rewrite length_ravel_tab; now symmetry|].
  intros v Hv.
  exists (fun t => - bigsum n (fun i => bigsum c (fun j =>
     ent T i j * (scores X c w i j + t * scores X c v i j -
       ln (bigsum c (fun k => exp (scores X c w i k + t * scores X c v i k))))))).
  split.
  - intros t. rewrite logLoss_WL_value by (rewrite length_line; lia).
    do 2 f_equal. apply bigsum_ext; intros i _.
    apply bigsum_ext; intros j Hj.
    rewrite scores_line by (rewrite ?Hd; lia). do 3 f_equal.
    apply bigsum_ext; intros k Hk.
    rewrite scores_line by (rewrite ?Hd; lia). reflexivity.
  - match goal with |- derivable_pt_lim _ _ ?l =>
      replace l with
        (- bigsum n (fun i => bigsum c (fun j =>
           ent T i j * (scores X c v i j -
             bigsum c (fun k => scores X c v i k *
                                exp (scores X c w i k + 0 * scores X c v i k)) /
             bigsum c (fun k => exp (scores X c w i k + 0 * scores X c v i k))))))
    end.
    + now apply (deriv_loss n c (ent T) (scores X c w) (scores X c v)).
    + rewrite loss_derivative_value.
      rewrite dotp_ravel_vec by lia.
      transitivity (bigsum n (fun i => bigsum c (fun j =>
         (probs X c w i j * bigsum c (ent T i) - ent T i j) *
         bigsum d (fun k => ent X i k * nth (k * c + j) v 0)))).
      * apply bigsum_ext; intros i Hi. apply bigsum_ext; intros j Hj.
        unfold probs, scores. rewrite Hd. ring.
      * apply (adjoint_sum n c d
                 (fun i j => probs X c w i j * bigsum c (ent T i) - ent T i j)
                 (ent X) (fun k j => nth (k * c + j) v 0)).
Qed.

(** The variant [G = np.dot(X.T, p*bias - T)] with
    [bias = np.sum(T, axis=1, keepdims=True)], which the source keeps in a
    comment, is the gradient of the loss for arbitrary targets. *)
Lemma logLoss_gradient_with_bias (w : list R) :
  length w = (d * c)%nat ->
  let p := softmax_spec (dot X (reshape2 d c w)) in
  is_gradient (fun w' => logLoss s w' X T) w
    (ravel (dot (transpose X) (ewise Rminus (colop Rmult p (sum1 T)) T))).
Proof using Hm Hc HX HT.
  intros Hw p.
  pose proof (logLoss_gradient_tab w Hw) as H.
  match goal with |- is_gradient _ _ ?G1 =>
    match type of H with is_gradient _ _ ?G2 =>
      replace G1 with G2; [exact H|]
    end
  end.
  unfold p. rewrite (softmax_spec_scores n d c X w HX Hw).
  rewrite (sum1_canon n c T HT), colop_tab.
  rewrite (ewise_canon Rminus n c) by first [assumption|apply has_shape_tab].
  rewrite (dot_transpose_canon n d c X) by first [assumption|apply has_shape_tab].
  f_equal. apply tab_ext; intros k j Hk Hj. apply bigsum_ext; intros i Hi.
  now rewrite !ent_tab.
Qed.

(** With targets whose rows sum to 1, the vector [gradLogLoss] returns is
    the gradient of [logLoss]. *)
Lemma gradLogLoss_is_gradient (w : list R) :
  length w = (d * c)%nat ->
  Forall (fun r => vsum r = 1) (rows T) ->
  forall G, gradLogLoss s w X T = Ok G ->
  is_gradient (fun w' => logLoss s w' X T) w G.
Proof using Hm Hc HX HT.
  intros Hw Hs G HG.
  rewrite (gradLogLoss_WL_value w Hw) in HG. injection HG as <-.
  pose proof (logLoss_gradient_tab w Hw) as H.
  match goal with |- is_gradient _ _ (ravel ?G1) =>
    match type of H with is_gradient _ _ (ravel ?G2) =>
      replace G1 with G2; [exact H|]
    end
  end.
  apply tab_ext; intros k j _ _. apply bigsum_ext; intros i Hi.
  rewrite (row_sums_ent n c T i) by assumption. ring.
Qed.

End StandardWeak.

(** C1 (as amended).  In StandardWeak mode, with at least one class, the
    loss is [-sum(T * logSoftmax(X.W))] with [W] the vector [w] reshaped
    row-major to d x c, and the gradient returned is
    [X^T.(softmax(X.W) - T)] flattened to length d*c, without a bias term.
    The returned vector is the gradient of the loss with respect to [w]
    when every row of [T] sums to 1. *)
Theorem logLoss_gradient_StandardWeak (s : WeakLogisticRegression)
  (n d : nat) (w : list R) (X T : ndarray) :
  is_OSL s = false -> n_classes s <> O ->
  has_shape n d X = true -> has_shape n (n_classes s) T = true ->
  length w = (d * n_classes s)%nat ->
  let S0 := dot X (reshape2 d (n_classes s) w) in
  let G := ravel (dot (transpose X) (ewise Rminus (softmax_spec S0) T)) in
  logLoss s w X T = Ok (- sum_all (ewise Rmult T (logsoftmax_spec S0))) /\
  gradLogLoss s w X T = Ok G /\
  length G = (d * n_classes s)%nat /\
  (Forall (fun r => vsum r = 1) (rows T) ->
   is_gradient (fun w' => logLoss s w' X T) w G).
Proof.
  intros Hm Hc HX HT Hw S0 G.
  assert (Hd : ncols X = d) by (apply has_shape_spec in HX; tauto).
  pose proof (shape_scores s n d w X HX Hw) as HS. fold S0 in HS.
  assert (HL : logLoss s w X T =
               Ok (- sum_all (ewise Rmult T (logsoftmax_spec S0)))).
  { unfold logLoss. rewrite Hm, Hd. fold S0.
    now rewrite (logsoftmax_ok n (n_classes s) S0 HS Hc). }
  assert (HG : gradLogLoss s w X T = Ok G).
  { unfold gradLogLoss. rewrite Hm, Hd. fold S0.
    now rewrite (softmax_ok n (n_classes s) S0 HS Hc). }
  assert (Hlen : length G = (d * n_classes s)%nat).
  { unfold G, S0. rewrite (softmax_spec_scores n d _ X w HX Hw).
    rewrite (tab_canon _ _ T HT) at 1. rewrite ewise_tab.
    rewrite (tab_canon _ _ X HX) at 1. rewrite transpose_tab, dot_tab.
    apply length_ravel_tab. }
  repeat split; try assumption.
  - destruct (gradLogLoss_is_gradient s n d X T Hm Hc HX HT w Hw H G HG)
      as [Hl _]. exact Hl.
  - apply (gradLogLoss_is_gradient s n d X T Hm Hc HX HT w Hw H G HG).
Qed.

Lemma logLoss_gradient_StandardWeak_witness :
  let s := init 2 "WL" "GD" None "off" in
  let X := NDArray 1 [[1]] in
  let T := NDArray 2 [[1; 0]] in
  let w := [0; 0] in
  let S0 := dot X (reshape2 1 2 w) in
  let G := ravel (dot (transpose X) (ewise Rminus (softmax_spec S0) T)) in
  logLoss s w X T = Ok (- sum_all (ewise Rmult T (logsoftmax_spec S0))) /\
  gradLogLoss s w X T = Ok G /\
  is_gradient (fun w' => logLoss s w' X T) w G.
Proof.
  intros s X T w S0 G.
  destruct (logLoss_gradient_StandardWeak s 1 1 w X T
              eq_refl (fun H : 2%nat = 0%nat => O_S 1 (eq_sym H))
              eq_refl eq_refl eq_refl)
    as [H1 [H2 [_ H4]]].
  split; [exact H1|]. split; [exact H2|].
  apply H4. constructor; [simpl; lra|constructor].
Defined.

(** C1 (as stated) fails: with a target row that does not sum to 1 (here
    the zero row) the loss is constantly 0 while the returned vector is
    not zero. *)
Lemma gradLogLoss_not_gradient_example :
  let s := init 2 "WL" "GD" None "off" in
  let X := NDArray 1 [[1]] in
  let T := NDArray 2 [[0; 0]] in
  let w := [0; 0] in
  exists G, gradLogLoss s w X T = Ok G /\
            ~ is_gradient (fun w' => logLoss s w' X T) w G.
Proof.
  intros s X T w.
  assert (Hc : n_classes s <> O) by (simpl; lia).
  eexists. split.
  - apply (gradLogLoss_WL_value s 1 1 X T); try reflexivity. exact Hc.
  - intros [_ Hg]. destruct (Hg [1; 0] eq_refl) as [g [Hval Hder]].
    assert (Hg0 : forall t, g t = 0).
    { intros t. specialize (Hval t).
      rewrite (logLoss_WL_value s 1 1 X T) in Hval
        by (try reflexivity; exact Hc).
      injection Hval as <-. unfold bigsum, ent, T. simpl. ring. }
    assert (Hzero : derivable_pt_lim g 0 0).
    { apply derivable_pt_lim_ext with (f := fct_cte 0).
      - intros t. now rewrite Hg0.
      - apply derivable_pt_lim_const. }
    pose proof (uniqueness_limite g 0 _ _ Hder Hzero) as Habs.
    pose proof (probs_pos X 2 w 0 0 ltac:(lia)) as Hp.
    revert Habs. unfold dotp, bigsum, ent, X, T. simpl.
    change (n_classes s) with 2%nat. fold X. lra.
Qed.

(** ** Hardmax *)

Lemma hardmax_tab (n c : nat) (f : nat -> nat -> R) :
  c <> O ->
  hardmax (tab n c f) = Ok (tab n c (fun i => hardmax_entry c (f i))).
Proof.
  intros Hc. unfold hardmax. rewrite amax1_tab by assumption. simpl rbind.
  unfold equal_col, tab; simpl. do 2 f_equal.
  rewrite map2_map_same, map_map, map2_map_same.
  apply map_ext; intros i. rewrite !map_map. reflexivity.
Qed.

(** [hardmax] is total on arrays with at least one column, and keeps the
    shape. *)
Lemma hardmax_total (n c : nat) (A : ndarray) :
  has_shape n c A = true -> c <> O ->
  exists D, hardmax A = Ok D /\ has_shape n c D = true.
Proof.
  intros H Hc. rewrite (tab_canon n c A H), hardmax_tab by assumption.
  eexists; split; [reflexivity|apply has_shape_tab].
Qed.

Lemma fold_left_Rmax_ge (l : list R) (a : R) : a <= fold_left Rmax l a.
Proof.
  revert a; induction l as [|b l IH]; intros a; simpl; [lra|].
  eapply Rle_trans; [apply (Rmax_l a b)|apply IH].
Qed.

Lemma fold_left_Rmax_in (l : list R) (a : R) :
  fold_left Rmax l a = a \/ In (fold_left Rmax l a) l.
Proof.
  revert a; induction l as [|b l IH]; intros a; simpl; [now left|].
  destruct (IH (Rmax a b)) as [E|E].
  - rewrite E. unfold Rmax. destruct (Rle_dec a b); [right; now left|now left].
  - right; now right.
Qed.

(** The maximum of a non-empty row is one of its entries. *)
Lemma rmax_in (r : list R) : r <> [] -> In (rmax r) r.
Proof.
  destruct r as [|a r]; [congruence|]. intros _. simpl.
  destruct (fold_left_Rmax_in r a) as [E|E]; [now left|now right].
Qed.

Lemma count_true_cons (b : bool) (l : list bool) :
  count_true (b :: l) = (Z.b2z b + count_true l)%Z.
Proof. reflexivity. Qed.

Lemma count_true_nonneg (l : list bool) : (0 <= count_true l)%Z.
Proof.
  induction l as [|b l IH]; [simpl; lia|].
  rewrite count_true_cons. destruct b; simpl Z.b2z; lia.
Qed.

Lemma count_true_pos (l : list bool) : In true l -> (1 <= count_true l)%Z.
Proof.
  induction l as [|b l IH]; [simpl; tauto|].
  pose proof (count_true_nonneg l). rewrite count_true_cons.
  intros [->|H']; [simpl Z.b2z; lia|].
  specialize (IH H'). destruct b; simpl Z.b2z; lia.
Qed.

(** The divisor of [hardmax] (the number of entries of a row equal to its
    maximum) is at least 1 on a non-empty row. *)
Lemma hardmax_divisor_pos (r : list R) :
  r <> [] ->
  (1 <= count_true
          (map (fun z => if Req_dec_T z (rmax r) then true else false) r))%Z.
Proof.
  intros Hr. apply count_true_pos. apply in_map_iff.
  exists (rmax r). split; [|now apply rmax_in].
  destruct (Req_dec_T (rmax r) (rmax r)); congruence.
Qed.

(** Floor division sends a tie to zero: with two or more maximal entries
    every entry of the row is 0. *)
Lemma hardmax_entry_tie (c : nat) (f : nat -> R) (j : nat) :
  (2 <= count_true
          (map (fun j' => if Req_dec_T (f j') (rmax (map f (seq 0 c)))
                          then true else false) (seq 0 c)))%Z ->
  hardmax_entry c f j = 0.
Proof.
  intros Hk. unfold hardmax_entry.
  rewrite Z.div_small; [reflexivity|].
  destruct (Req_dec_T (f j) _); simpl; lia.
Qed.

(** With a single maximal entry the row is the one-hot vector of that
    entry. *)
Lemma hardmax_entry_unique (c : nat) (f : nat -> R) (j : nat) :
  count_true
    (map (fun j' => if Req_dec_T (f j') (rmax (map f (seq 0 c)))
                    then true else false) (seq 0 c)) = 1%Z ->
  hardmax_entry c f j =
  if Req_dec_T (f j) (rmax (map f (seq 0 c))) then 1 else 0.
Proof.
  intros Hk. unfold hardmax_entry. rewrite Hk, Z.div_1_r.
  destruct (Req_dec_T (f j) _); reflexivity.
Qed.

Lemma repeat_map_seq {A : Type} (a : A) (c : nat) :
  repeat a c = map (fun _ => a) (seq 0 c).
Proof.
  induction c as [|c IH]; [reflexivity|].
  rewrite seq_S, map_app, <- IH. simpl. now rewrite <- repeat_cons.
Qed.

Lemma count_true_all_from (a c : nat) :
  count_true (map (fun _ : nat => true) (seq a c)) = Z.of_nat c.
Proof.
  revert a; induction c as [|c IH]; intros a; [reflexivity|].
  simpl seq. simpl map. rewrite count_true_cons, IH. simpl Z.b2z. lia.
Qed.

Lemma count_true_all (c : nat) :
  count_true (map (fun _ : nat => true) (seq 0 c)) = Z.of_nat c.
Proof. apply count_true_all_from. Qed.

Lemma rmax_const (a : R) (c : nat) :
  c <> O -> rmax (map (fun _ : nat => a) (seq 0 c)) = a.
Proof.
  intros Hc.
  assert (Hin : In (rmax (map (fun _ : nat => a) (seq 0 c)))
                   (map (fun _ : nat => a) (seq 0 c))).
  { apply rmax_in. destruct c; [congruence|discriminate]. }
  apply in_map_iff in Hin. destruct Hin as [_ [E _]]. now symmetry.
Qed.

(** On a row of [c >= 2] equal entries the code returns the zero row. *)
Lemma hardmax_const_row (c : nat) (a : R) :
  (2 <= c)%nat ->
  hardmax (NDArray c [repeat a c]) = Ok (NDArray c [repeat 0 c]).
Proof.
  intros Hc.
  assert (E : NDArray c [repeat a c] = tab 1 c (fun _ _ => a)).
  { unfold tab. simpl. now rewrite repeat_map_seq. }
  rewrite E, hardmax_tab by lia. f_equal.
  unfold tab. simpl. rewrite repeat_map_seq. do 2 f_equal.
  apply map_ext; intros j. apply hardmax_entry_tie.
  rewrite rmax_const by lia.
  rewrite (map_ext _ (fun _ => true)), count_true_all; [lia|].
  intros j'. destruct (Req_dec_T a a); congruence.
Qed.

(** C7, at the failing input.  On a row with a tie the row of [hardmax]
    is zero: it does not sum to 1, and the tied entries are not 1/2. *)
Theorem hardmax_tie_example :
  hardmax (NDArray 2 [[1; 1]]) = Ok (NDArray 2 [[0; 0]]) /\
  vsum [0; 0] <> 1 /\ 0 <> 1 / 2.
Proof.
  split; [apply (hardmax_const_row 2 1); lia|].
  split; [simpl|]; lra.
Qed.

(** C10, at the failing inputs.  For a row of [c >= 2] equal entries, such
    as the all-zero row, [hardmax] returns (it is total) the zero row, not
    the uniform row with 1/c in every position. *)
Theorem hardmax_equal_row_is_zero (c : nat) (a : R) :
  (2 <= c)%nat ->
  hardmax (NDArray c [repeat a c]) = Ok (NDArray c [repeat 0 c]) /\
  repeat 0 c <> repeat (1 / INR c) c.
Proof.
  intros Hc. split; [now apply hardmax_const_row|].
  assert (Hpos : 0 < 1 / INR c).
  { apply Rdiv_lt_0_compat; [lra|]. apply lt_0_INR. lia. }
  destruct c as [|c]; [lia|].
  remember (1 / INR (S c)) as u eqn:Hu.
  simpl repeat. intros E. injection E as E _. lra.
Qed.

Lemma hardmax_equal_row_is_zero_witness :
  hardmax (NDArray 2 [repeat 0 2]) = Ok (NDArray 2 [repeat 0 2]) /\
  repeat 0 2 <> repeat (1 / INR 2) 2.
Proof.
  apply (hardmax_equal_row_is_zero 2 0). apply le_n.
Defined.

(** ** The method tag *)

Lemma is_OSL_with_method (s : WeakLogisticRegression) (m : string) :
  m <> "OSL"%string -> is_OSL (with_method s m) = false.
Proof. intros H. unfold is_OSL; simpl. now apply String.eqb_neq. Qed.

Lemma for_loop_ext {S : Type} (l : list nat) (b1 b2 : nat -> S -> res S)
  (s : S) :
  (forall n s', b1 n s' = b2 n s') -> for_loop l b1 s = for_loop l b2 s.
Proof.
  intros H. revert s; induction l as [|n l IH]; intros s; simpl;
    [reflexivity|].
  rewrite H. destruct (b2 n s); simpl; [apply IH|reflexivity].
Qed.

(** The loss, the gradient and the update of [gd2] read of [self] only
    whether the method is ['OSL'], the number of classes and the
    parameters. *)
Lemma logLoss_config (s1 s2 : WeakLogisticRegression) (w : list R)
  (X T : ndarray) :
  is_OSL s1 = is_OSL s2 -> n_classes s1 = n_classes s2 ->
  logLoss s1 w X T = logLoss s2 w X T.
Proof. intros Hm Hc. unfold logLoss. now rewrite Hm, Hc. Qed.

Lemma gradLogLoss_config (s1 s2 : WeakLogisticRegression) (w : list R)
  (X T : ndarray) :
  is_OSL s1 = is_OSL s2 -> n_classes s1 = n_classes s2 ->
  gradLogLoss s1 w X T = gradLogLoss s2 w X T.
Proof. intros Hm Hc. unfold gradLogLoss. now rewrite Hm, Hc. Qed.

Lemma gd2_body_config (s1 s2 : WeakLogisticRegression) (X T : ndarray)
  (n : nat) (W0 : ndarray) :
  is_OSL s1 = is_OSL s2 -> params s1 = params s2 ->
  gd2_body s1 X T n W0 = gd2_body s2 X T n W0.
Proof.
  intros Hm Hp. unfold gd2_body, getitem_params. now rewrite Hm, Hp.
Qed.

Lemma gd_body_config (s1 s2 : WeakLogisticRegression) (X T : ndarray)
  (n : nat) (W0 : ndarray) :
  is_OSL s1 = is_OSL s2 -> n_classes s1 = n_classes s2 ->
  params s1 = params s2 ->
  gd_body s1 X T n W0 = gd_body s2 X T n W0.
Proof.
  intros Hm Hc Hp. unfold gd_body, getitem_params.
  now rewrite (gradLogLoss_config s1 s2) , Hc, Hp by assumption.
Qed.

(** C9.  Every method tag other than ['OSL'] behaves as StandardWeak
    (['WL']): the loss, the gradient and [gd2] return what they return
    with ['WL'], so no tag is rejected. *)
Theorem unknown_method_is_StandardWeak (s : WeakLogisticRegression)
  (m : string) :
  m <> "OSL"%string ->
  (forall w X T,
     logLoss (with_method s m) w X T = logLoss (with_method s "WL") w X T) /\
  (forall w X T,
     gradLogLoss (with_method s m) w X T =
     gradLogLoss (with_method s "WL") w X T) /\
  (forall X T n W0,
     gd2_body (with_method s m) X T n W0 =
     gd2_body (with_method s "WL") X T n W0) /\
  (forall X T g out,
     fst (gd2 X T (World (with_method s m) g out)) =
     fst (gd2 X T (World (with_method s "WL") g out)) /\
     np_random (snd (gd2 X T (World (with_method s m) g out))) =
     np_random (snd (gd2 X T (World (with_method s "WL") g out)))).
Proof.
  intros Hm.
  assert (E : is_OSL (with_method s m) = is_OSL (with_method s "WL")).
  { rewrite is_OSL_with_method by assumption. reflexivity. }
  split; [intros; now apply logLoss_config|].
  split; [intros; now apply gradLogLoss_config|].
  split; [intros; now apply gd2_body_config|].
  intros X T g out. unfold gd2, bind, get_self, randn2, randn1, lift, ret.
  simpl. unfold getitem_params; simpl. destruct (params s) as [p|]; simpl.
  - rewrite (for_loop_ext _ (gd2_body (with_method s m) X T)
               (gd2_body (with_method s "WL") X T))
      by (intros; now apply gd2_body_config).
    split; reflexivity.
  - split; reflexivity.
Qed.

Lemma unknown_method_is_StandardWeak_witness :
  let s := init 2 "VLL" "GD2" (Some {| n_it := 3; rho := 1 |}) "off" in
  let X := NDArray 1 [[1]] in
  let T := NDArray 2 [[1; 0]] in
  logLoss (with_method s "VLL") [0; 0] X T =
  logLoss (with_method s "WL") [0; 0] X T /\
  gradLogLoss (with_method s "VLL") [0; 0] X T =
  gradLogLoss (with_method s "WL") [0; 0] X T.
Proof.
  intros s X T.
  destruct (unknown_method_is_StandardWeak s "VLL" ltac:(discriminate))
    as [H1 [H2 _]].
  split; [apply H1|apply H2].
Defined.

(** ** The untrained state *)

Ltac unfold_methods :=
  unfold fit, gd, gd2, randn2, randn1, bind, set_n_dim, set_W, print,
    get_self, lift, ret, draw in *; simpl in *.

Ltac split_match :=
  match goal with
  | |- context [match ?t with _ => _ end] => destruct t eqn:?; simpl in *
  | H : context [match ?t with _ => _ end] |- _ => destruct t eqn:?; simpl in *
  end.

(** A call of [fit] that raises leaves [self.W] as it was. *)
Lemma failed_fit_keeps_W (minimize : Minimizer) (X : ndarray) (Y : labels)
  (w : world) (e : exn) :
  fst (fit minimize X Y w) = Raise e ->
  W (self (snd (fit minimize X Y w))) = W (self w).
Proof.
  unfold_methods. repeat split_match; intros H; simpl in *;
    try discriminate; try reflexivity;
    repeat match goal with
           | E : (_, _) = (_, _) |- _ => injection E as ? ?; subst
           end; simpl; try discriminate; reflexivity.
Qed.

Lemma untrained_W (w : world) : untrained w -> W (self w) = None.
Proof.
  induction 1 as [| minimize X Y w e _ IH Hfail | s g g' out out' _ IH];
    [reflexivity| |exact IH].
  now rewrite (failed_fit_keeps_W minimize X Y w e Hfail).
Qed.

(** C4 (as amended).  In the untrained state [predict] and
    [predict_proba] fail: reading the attribute [W], which does not exist
    yet, raises [AttributeError]. *)
Theorem predict_untrained_fails (w : world) (X : ndarray) :
  untrained w ->
  predict (self w) X = Raise AttributeError /\
  predict_proba (self w) X = Raise AttributeError.
Proof.
  intros H. apply untrained_W in H.
  unfold predict, predict_proba, getattr_W. rewrite H. split; reflexivity.
Qed.

Lemma predict_untrained_fails_witness :
  let w := World (init 2 "WL" "GD" None "off")
                 {| stream := fun _ => 0; pos := 0 |} [] in
  predict (self w) (NDArray 1 [[1]]) = Raise AttributeError /\
  predict_proba (self w) (NDArray 1 [[1]]) = Raise AttributeError.
Proof.
  intros w. apply (predict_untrained_fails w). apply untrained_init.
Defined.

(** C4 (as stated) fails: the exception of an untrained classifier is not
    [NotFittedError]. *)
Lemma predict_untrained_not_NotFittedError :
  let w := World (init 2 "WL" "GD" None "off")
                 {| stream := fun _ => 0; pos := 0 |} [] in
  untrained w /\
  predict (self w) (NDArray 1 [[1]]) <> Raise NotFittedError /\
  predict_proba (self w) (NDArray 1 [[1]]) <> Raise NotFittedError.
Proof.
  intros w. split; [apply untrained_init|].
  split; discriminate.
Qed.

(** ** The external optimizer *)

(** C5 (as amended).  When [fit] dispatches to an external optimizer and
    the optimizer returns, whether it reports success or not, [fit] stores
    the returned vector reshaped as [self.W], prints the success flag, the
    status and the message, and returns [self]: no exception is raised. *)
Theorem fit_external_stores_result (minimize : Minimizer) (X T : ndarray)
  (Y : labels) (w : world) (o : OptimizeResult) :
  String.eqb (optimizer (self w)) "GD" = false ->
  String.eqb (optimizer (self w)) "GD2" = false ->
  targets (self w) Y = Ok T ->
  let s1 := self (snd (set_n_dim (ncols X) w)) in
  let c := n_classes (self w) in
  let w0 := vscale (1 / 100000) (fst (draw (ncols X * c) (np_random w))) in
  minimize (fun w' => logLoss s1 w' X T) w0
           (fun w' => gradLogLoss s1 w' X T) (optimizer (self w)) = Ok o ->
  let r := fit minimize X Y w in
  fst r = Ok (self (snd r)) /\
  W (self (snd r)) = Some (reshape2 (ncols X) c (x o)) /\
  stdout (snd r) =
    stdout w ++ [PBool (success o); PInt (status o); PStr (message o)].
Proof.
  intros Hgd Hgd2 HT s1 c w0 Hmin r. subst r s1 c w0.
  unfold targets in HT. unfold_methods.
  rewrite Hgd, Hgd2.
  destruct Y as [v|T0]; simpl in *.
  - rewrite HT. simpl. rewrite Hmin. simpl.
    rewrite <- !app_assoc. repeat split.
  - injection HT as ->. rewrite Hmin. simpl.
    rewrite <- !app_assoc. repeat split.
Qed.

Lemma fit_external_stores_result_witness :
  let w := World (init 2 "WL" "BFGS" None "off")
                 {| stream := fun _ => 0; pos := 0 |} [] in
  let X := NDArray 1 [[1]] in
  let r := fit failing_minimizer X (Y2 (NDArray 2 [[1; 0]])) w in
  fst r = Ok (self (snd r)) /\
  W (self (snd r)) =
    Some (reshape2 1 2 (vscale (1 / 100000) [0; 0])) /\
  stdout (snd r) =
    [PBool false; PInt 2;
     PStr "Maximum number of iterations has been exceeded."].
Proof.
  intros w X r.
  exact (fit_external_stores_result failing_minimizer X (NDArray 2 [[1; 0]])
           (Y2 (NDArray 2 [[1; 0]])) w _ eq_refl eq_refl eq_refl eq_refl).
Defined.

(** C5 (as stated) fails: with an optimizer that reports failure, [fit]
    raises no [ConvergenceFailure]; it returns normally and keeps the
    unconverged matrix (here the starting point) in [self.W]. *)
Lemma fit_external_no_ConvergenceFailure :
  let w := World (init 2 "WL" "BFGS" None "off")
                 {| stream := fun _ => 0; pos := 0 |} [] in
  let X := NDArray 1 [[1]] in
  let r := fit failing_minimizer X (Y2 (NDArray 2 [[1; 0]])) w in
  (forall msg, fst r <> Raise (ConvergenceFailure msg)) /\
  (exists s', fst r = Ok s') /\
  W (self (snd r)) = Some (reshape2 1 2 (vscale (1 / 100000) [0; 0])).
Proof.
  intros w X r. split; [|split].
  - intros msg. discriminate.
  - eexists. reflexivity.
  - reflexivity.
Qed.

(** ** One-hot encoding *)

Lemma repeat_map_seq_from {A : Type} (a : A) (s c : nat) :
  repeat a c = map (fun _ => a) (seq s c).
Proof.
  revert s; induction c as [|c IH]; intros s; [reflexivity|].
  simpl. now rewrite <- IH.
Qed.

Lemma rows_zeros (n c : nat) : rows (zeros n c) = repeat (repeat 0 c) n.
Proof.
  unfold zeros, tab; simpl.
  now rewrite <- !repeat_map_seq_from.
Qed.

Lemma map2_repeat {A B C : Type} (f : A -> B -> C) (z : A) (l : list B) :
  map2 f (repeat z (length l)) l = map (f z) l.
Proof. induction l as [|b l IH]; simpl; [reflexivity|now rewrite IH]. Qed.

Lemma norm_index_in (dim : nat) (k : Z) :
  (- Z.of_nat dim <= k < Z.of_nat dim)%Z ->
  norm_index dim k = Ok (Z.to_nat (k mod Z.of_nat dim)).
Proof.
  intros Hk. unfold norm_index.
  destruct (Z.leb_spec 0 k); destruct (Z.ltb_spec k (Z.of_nat dim));
    simpl; try lia.
  - now rewrite Z.mod_small by lia.
  - destruct (Z.leb_spec (- Z.of_nat dim) k); destruct (Z.ltb_spec k 0);
      simpl; try lia.
    do 2 f_equal.
    rewrite <- (Z.mod_add k 1 (Z.of_nat dim)) by lia.
    rewrite Z.mod_small by lia. lia.
Qed.

Lemma norm_index_out (dim : nat) (k : Z) :
  (k < - Z.of_nat dim \/ Z.of_nat dim <= k)%Z ->
  norm_index dim k = Raise IndexError.
Proof.
  intros Hk. unfold norm_index.
  destruct (Z.leb_spec 0 k); destruct (Z.ltb_spec k (Z.of_nat dim));
    destruct (Z.leb_spec (- Z.of_nat dim) k); destruct (Z.ltb_spec k 0);
    simpl; try reflexivity; lia.
Qed.

Lemma norm_index_raises (dim : nat) (k : Z) (e : exn) :
  norm_index dim k = Raise e -> e = IndexError.
Proof.
  unfold norm_index.
  destruct (_ && _); [discriminate|]. destruct (_ && _); [discriminate|].
  now intros [= <-].
Qed.

Lemma mapM_ok {A B : Type} (f : A -> res B) (g : A -> B) (l : list A) :
  (forall a, In a l -> f a = Ok (g a)) -> mapM f l = Ok (map g l).
Proof.
  induction l as [|a l IH]; intros H; simpl; [reflexivity|].
  rewrite (H a) by now left. simpl.
  rewrite IH by (intros; apply H; now right). reflexivity.
Qed.

Lemma mapM_raise {A B : Type} (f : A -> res B) (e : exn) (l : list A) :
  (forall a e', f a = Raise e' -> e' = e) ->
  Exists (fun a => f a = Raise e) l -> mapM f l = Raise e.
Proof.
  intros Hone. induction l as [|a l IH]; intros H; [inversion H|].
  simpl. destruct (f a) as [b|e'] eqn:Ea; simpl.
  - inversion H as [? ? Hx|? ? Hx]; subst; [congruence|].
    now rewrite (IH Hx).
  - now rewrite (Hone a e' Ea).
Qed.

Lemma set_nth_zeros (c j a : nat) :
  (j < c)%nat ->
  set_nth j 1 (repeat 0 c) =
  map (fun i => if Nat.eqb i (a + j) then 1 else 0) (seq a c).
Proof.
  revert j a; induction c as [|c IH]; intros j a Hj; [lia|].
  destruct j as [|j]; simpl.
  - rewrite Nat.add_0_r, Nat.eqb_refl. f_equal.
    rewrite (repeat_map_seq_from 0 (S a) c).
    apply map_ext_in; intros i Hi. apply in_seq in Hi.
    destruct (Nat.eqb_spec i a); [lia|reflexivity].
  - destruct (Nat.eqb_spec a (a + S j)); [lia|]. f_equal.
    rewrite (IH j (S a)) by lia.
    apply map_ext; intros i. now replace (S a + j)%nat with (a + S j)%nat by lia.
Qed.

Lemma set_nth_unit_vec (c j : nat) :
  (j < c)%nat -> set_nth j 1 (repeat 0 c) = unit_vec c j.
Proof. intros Hj. now rewrite (set_nth_zeros c j 0). Qed.

Lemma vsum_unit_from (c j a : nat) :
  (j < c)%nat ->
  vsum (map (fun i => if Nat.eqb i (a + j) then 1 else 0) (seq a c)) = 1.
Proof.
  revert j a; induction c as [|c IH]; intros j a Hj; [lia|].
  simpl seq. simpl map. rewrite vsum_cons. destruct j as [|j].
  - rewrite Nat.add_0_r, Nat.eqb_refl.
    rewrite (map_ext_in _ (fun _ => 0)).
    + rewrite <- repeat_map_seq_from.
      assert (E : forall m, vsum (repeat 0 m) = 0).
      { induction m as [|m IHm]; [reflexivity|].
        simpl repeat. rewrite vsum_cons, IHm. lra. }
      rewrite E. lra.
    + intros i Hi. apply in_seq in Hi.
      destruct (Nat.eqb_spec i a); [lia|reflexivity].
  - destruct (Nat.eqb_spec a (a + S j)); [lia|].
    rewrite (map_ext _ (fun i => if Nat.eqb i (S a + j) then 1 else 0))
      by (intros i; now replace (S a + j)%nat with (a + S j)%nat by lia).
    rewrite IH by lia. lra.
Qed.

Lemma vsum_unit_vec (c j : nat) : (j < c)%nat -> vsum (unit_vec c j) = 1.
Proof. intros Hj. apply (vsum_unit_from c j 0 Hj). Qed.

Lemma length_unit_vec (c j : nat) : length (unit_vec c j) = c.
Proof. unfold unit_vec. now rewrite length_map, length_seq. Qed.

Lemma index2bin_value (vector : list Z) (dim : nat) :
  Forall (fun k => (- Z.of_nat dim <= k < Z.of_nat dim)%Z) vector ->
  index2bin vector dim =
  Ok (NDArray dim
        (map (fun k => unit_vec dim (Z.to_nat (k mod Z.of_nat dim))) vector)).
Proof.
  intros H. rewrite Forall_forall in H. unfold index2bin.
  rewrite (mapM_ok _ (fun k => Z.to_nat (k mod Z.of_nat dim)))
    by (intros k Hk; apply norm_index_in; now apply H).
  cbn [rbind]. rewrite rows_zeros.
  rewrite <- (length_map (fun k => Z.to_nat (k mod Z.of_nat dim)) vector).
  rewrite map2_repeat, map_map. do 2 f_equal.
  apply map_ext_in; intros k Hk. apply set_nth_unit_vec.
  specialize (H k Hk).
  pose proof (Z.mod_pos_bound k (Z.of_nat dim) ltac:(lia)). lia.
Qed.

(** C6 (as amended).  [index2bin] raises [IndexError] whenever an index
    is [>= dim] or [< -dim]; an index in [[-dim, 0)] counts from the end
    of the row, as numpy reads it.  When all indices lie in [[0, dim)] the
    result is the n x dim array with a single 1 per row, at the given
    index, and 0 elsewhere, so every row sums to 1. *)
Theorem index2bin_spec (vector : list Z) (dim : nat) :
  (Exists (fun k => (k < - Z.of_nat dim \/ Z.of_nat dim <= k)%Z) vector ->
   index2bin vector dim = Raise IndexError) /\
  (Forall (fun k => (- Z.of_nat dim <= k < Z.of_nat dim)%Z) vector ->
   exists B,
     index2bin vector dim = Ok B /\
     has_shape (length vector) dim B = true /\
     Forall (fun r => vsum r = 1) (rows B) /\
     rows B =
       map (fun k => unit_vec dim (Z.to_nat (k mod Z.of_nat dim))) vector) /\
  (Forall (fun k => (0 <= k < Z.of_nat dim)%Z) vector ->
   index2bin vector dim =
   Ok (NDArray dim (map (fun k => unit_vec dim (Z.to_nat k)) vector))).
Proof.
  split; [|split].
  - intros H. unfold index2bin.
    rewrite (mapM_raise (norm_index dim) IndexError); [reflexivity| |].
    + intros k e He. now apply norm_index_raises in He.
    + eapply Exists_impl; [|exact H]. intros k. apply norm_index_out.
  - intros H. eexists. split; [now apply index2bin_value|].
    rewrite Forall_forall in H.
    split; [|split; [|reflexivity]].
    + apply has_shape_spec. unfold nrows; simpl.
      split; [apply length_map|]. split; [reflexivity|].
      unfold wf; simpl. apply forallb_forall. intros r Hr.
      apply in_map_iff in Hr. destruct Hr as [k [<- _]].
      rewrite length_unit_vec. apply Nat.eqb_refl.
    + simpl. apply Forall_forall. intros r Hr.
      apply in_map_iff in Hr. destruct Hr as [k [<- Hk]].
      apply vsum_unit_vec. specialize (H k Hk).
      pose proof (Z.mod_pos_bound k (Z.of_nat dim) ltac:(lia)). lia.
  - intros H. rewrite index2bin_value.
    + do 2 f_equal. apply map_ext_in; intros k Hk.
      rewrite Forall_forall in H. now rewrite Z.mod_small by now apply H.
    + eapply Forall_impl; [|exact H]. simpl. intros k Hk. lia.
Qed.

Lemma index2bin_spec_witness :
  index2bin [2%Z] 2 = Raise IndexError /\
  index2bin [1%Z; 0%Z] 2 =
    Ok (NDArray 2 [unit_vec 2 (Z.to_nat 1); unit_vec 2 (Z.to_nat 0)]).
Proof.
  split.
  - apply (proj1 (index2bin_spec [2%Z] 2)).
    constructor. right. simpl. lia.
  - apply (proj2 (proj2 (index2bin_spec [1%Z; 0%Z] 2))).
    repeat constructor; simpl; lia.
Defined.

(** C6 (as stated) fails: a negative index is not rejected, the index -1
    sets the last entry of the row. *)
Lemma index2bin_negative_index :
  (-1 < 0)%Z /\ index2bin [(-1)%Z] 2 = Ok (NDArray 2 [[0; 1]]).
Proof. split; [lia|reflexivity]. Qed.

(** ** Loss and gradient in OSL mode *)

Lemma ewise_shape (op : R -> R -> R) (n c : nat) (A B : ndarray) :
  has_shape n c A = true -> has_shape n c B = true ->
  has_shape n c (ewise op A B) = true.
Proof.
  intros HA HB. rewrite (tab_canon n c A HA), (tab_canon n c B HB), ewise_tab.
  apply has_shape_tab.
Qed.

Lemma length_ravel_dot (n c : nat) (X A : ndarray) :
  has_shape n c A = true ->
  length (ravel (dot (transpose X) A)) = (ncols X * c)%nat.
Proof.
  intros HA. apply has_shape_spec in HA. destruct HA as [_ [Hc _]].
  unfold dot. rewrite Hc. unfold transpose at 1. rewrite nrows_tab.
  apply length_ravel_tab.
Qed.

Lemma OSL_values (s : WeakLogisticRegression) (n d : nat) (w : list R)
  (X T : ndarray) :
  is_OSL s = true -> n_classes s <> O ->
  has_shape n d X = true -> has_shape n (n_classes s) T = true ->
  length w = (d * n_classes s)%nat ->
  let S0 := dot X (reshape2 d (n_classes s) w) in
  let p := softmax_spec S0 in
  exists D,
    hardmax (ewise Rmult T p) = Ok D /\
    has_shape n (n_classes s) D = true /\
    logLoss s w X T = Ok (- sum_all (ewise Rmult D (logsoftmax_spec S0))) /\
    gradLogLoss s w X T = Ok (ravel (dot (transpose X) (ewise Rminus p D))).
Proof.
  intros Hm Hc HX HT Hw S0 p.
  assert (Hd : ncols X = d) by (apply has_shape_spec in HX; tauto).
  pose proof (shape_scores s n d w X HX Hw) as HS. fold S0 in HS.
  pose proof (has_shape_softmax_spec _ _ S0 HS) as Hp. fold p in Hp.
  destruct (hardmax_total n (n_classes s) (ewise Rmult T p)
              (ewise_shape Rmult _ _ T p HT Hp) Hc) as [D [HD HsD]].
  exists D. split; [exact HD|]. split; [exact HsD|]. split.
  - unfold logLoss. rewrite Hm, Hd. fold S0.
    rewrite (logsoftmax_ok n (n_classes s) S0 HS Hc). simpl rbind.
    rewrite (exp_logsoftmax_spec n (n_classes s) S0 HS Hc). fold p.
    now rewrite HD.
  - unfold gradLogLoss. rewrite Hm, Hd. fold S0.
    rewrite (softmax_ok n (n_classes s) S0 HS Hc). simpl rbind. fold p.
    now rewrite HD.
Qed.

Lemma Rmax_left_gt (a b : R) : b < a -> Rmax a b = a.
Proof. intros H. apply Rmax_left. lra. Qed.

Lemma hardmax_entry_first (f : nat -> R) :
  f 1%nat < f 0%nat ->
  hardmax_entry 2 f 0 = 1 /\ hardmax_entry 2 f 1 = 0.
Proof.
  intros H. unfold hardmax_entry. simpl.
  rewrite (Rmax_left_gt _ _ H).
  destruct (Req_dec_T (f 0%nat) (f 0%nat)); [|congruence].
  destruct (Req_dec_T (f 1%nat) (f 0%nat)); [lra|].
  split; reflexivity.
Qed.

Lemma hardmax_entry_second (f : nat -> R) :
  f 0%nat < f 1%nat ->
  hardmax_entry 2 f 0 = 0 /\ hardmax_entry 2 f 1 = 1.
Proof.
  intros H. unfold hardmax_entry. simpl.
  rewrite Rmax_right by lra.
  destruct (Req_dec_T (f 1%nat) (f 1%nat)); [|congruence].
  destruct (Req_dec_T (f 0%nat) (f 1%nat)); [lra|].
  split; reflexivity.
Qed.

Lemma probs_lt (X : ndarray) (c : nat) (w : list R) (i j j' : nat) :
  c <> O -> scores X c w i j < scores X c w i j' ->
  probs X c w i j < probs X c w i j'.
Proof.
  intros Hc H. unfold probs.
  pose proof (sumexp_pos c (fun k => scores X c w i k) Hc) as Hs.
  apply Rmult_lt_compat_r; [now apply Rinv_0_lt_compat|].
  now apply exp_increasing.
Qed.

(** The resolved targets of OSL for a sample with candidate set {0, 1}:
    the class with the larger score. *)
Lemma OSL_targets_example (w : list R) :
  let X := NDArray 1 [[1]] in
  let T := NDArray 2 [[1; 1]] in
  length w = 2%nat ->
  let p := softmax_spec (dot X (reshape2 1 2 w)) in
  (nth 1 w 0 < nth 0 w 0 ->
   hardmax (ewise Rmult T p) = Ok (NDArray 2 [[1; 0]])) /\
  (nth 0 w 0 < nth 1 w 0 ->
   hardmax (ewise Rmult T p) = Ok (NDArray 2 [[0; 1]])).
Proof.
  intros X T Hw p.
  assert (HX : has_shape 1 1 X = true) by reflexivity.
  assert (HT : has_shape 1 2 T = true) by reflexivity.
  assert (Hp : hardmax (ewise Rmult T p) =
               Ok (tab 1 2 (fun i => hardmax_entry 2
                     (fun j => ent T i j * probs X 2 w i j)))).
  { unfold p. rewrite (softmax_spec_scores 1 1 2 X w HX) by assumption.
    rewrite (tab_canon 1 2 T HT) at 1. rewrite ewise_tab.
    now rewrite hardmax_tab by lia. }
  assert (Hs : forall j, (j < 2)%nat -> scores X 2 w 0 j = nth j w 0).
  { intros j Hj. unfold scores, bigsum, ent, X. simpl. ring. }
  rewrite Hp. split; intros Hlt.
  - destruct (hardmax_entry_first
                (fun j => ent T 0 j * probs X 2 w 0 j)) as [E0 E1].
    + unfold ent, T; simpl. rewrite !Rmult_1_l.
      apply probs_lt; [lia|]. now rewrite !Hs by lia.
    + unfold tab; simpl. now rewrite E0, E1.
  - destruct (hardmax_entry_second
                (fun j => ent T 0 j * probs X 2 w 0 j)) as [E0 E1].
    + unfold ent, T; simpl. rewrite !Rmult_1_l.
      apply probs_lt; [lia|]. now rewrite !Hs by lia.
    + unfold tab; simpl. now rewrite E0, E1.
Qed.

(** What the code computes in OSL mode, with at least one class: the loss
    and the gradient both compute [p = softmax(X.W)] and
    [D = hardmax(T * p)], with the [hardmax] of the code, from the weights
    they are given, and return [-sum(D * logSoftmax(X.W))] and
    [X^T.(p - D)] flattened to length d*c.  [D] is not fixed: for the same
    data, two weight vectors can give two different [D]. *)
Lemma OSL_loss_and_gradient :
  (forall (s : WeakLogisticRegression) (n d : nat) (w : list R)
          (X T : ndarray),
     is_OSL s = true -> n_classes s <> O ->
     has_shape n d X = true -> has_shape n (n_classes s) T = true ->
     length w = (d * n_classes s)%nat ->
     let S0 := dot X (reshape2 d (n_classes s) w) in
     let p := softmax_spec S0 in
     exists D,
       softmax S0 = Ok p /\
       hardmax (ewise Rmult T p) = Ok D /\
       logLoss s w X T = Ok (- sum_all (ewise Rmult D (logsoftmax_spec S0))) /\
       gradLogLoss s w X T = Ok (ravel (dot (transpose X) (ewise Rminus p D))) /\
       length (ravel (dot (transpose X) (ewise Rminus p D))) =
         (d * n_classes s)%nat) /\
  (let X := NDArray 1 [[1]] in
   let T := NDArray 2 [[1; 1]] in
   hardmax (ewise Rmult T (softmax_spec (dot X (reshape2 1 2 [1; 0])))) =
     Ok (NDArray 2 [[1; 0]]) /\
   hardmax (ewise Rmult T (softmax_spec (dot X (reshape2 1 2 [0; 1])))) =
     Ok (NDArray 2 [[0; 1]])).
Proof.
  split.
  - intros s n d w X T Hm Hc HX HT Hw S0 p.
    destruct (OSL_values s n d w X T Hm Hc HX HT Hw) as [D [HD [HsD [HL HG]]]].
    fold S0 in HD, HL, HG. fold p in HD, HG.
    pose proof (shape_scores s n d w X HX Hw) as HS. fold S0 in HS.
    pose proof (has_shape_softmax_spec _ _ S0 HS) as Hp. fold p in Hp.
    exists D. split; [now apply (softmax_ok n (n_classes s))|].
    repeat split; try assumption.
    rewrite (length_ravel_dot n (n_classes s))
      by now apply ewise_shape.
    apply has_shape_spec in HX. destruct HX as [_ [-> _]]. reflexivity.
  - intros X T. split.
    + apply (proj1 (OSL_targets_example [1; 0] eq_refl)). simpl. lra.
    + apply (proj2 (OSL_targets_example [0; 1] eq_refl)). simpl. lra.
Qed.

Lemma OSL_loss_and_gradient_witness :
  let s := init 2 "OSL" "GD" None "off" in
  let X := NDArray 1 [[1]] in
  let T := NDArray 2 [[1; 1]] in
  let w := [1; 0] in
  let S0 := dot X (reshape2 1 2 w) in
  let p := softmax_spec S0 in
  exists D,
    softmax S0 = Ok p /\
    hardmax (ewise Rmult T p) = Ok D /\
    logLoss s w X T = Ok (- sum_all (ewise Rmult D (logsoftmax_spec S0))) /\
    gradLogLoss s w X T = Ok (ravel (dot (transpose X) (ewise Rminus p D))) /\
    length (ravel (dot (transpose X) (ewise Rminus p D))) = 2%nat.
Proof.
  intros s X T w S0 p.
  exact (proj1 OSL_loss_and_gradient s 1%nat 1%nat w X T
           eq_refl (fun H : 2%nat = 0%nat => O_S 1 (eq_sym H))
           eq_refl eq_refl eq_refl).
Defined.

(** *** The loss and the gradient of OSL on a tie *)

Lemma softmax_spec_tie :
  softmax_spec (dot (NDArray 1 [[1]]) (reshape2 1 2 [0; 0])) =
  NDArray 2 [[1 / 2; 1 / 2]].
Proof.
  rewrite (softmax_spec_scores 1 1 2 (NDArray 1 [[1]]) [0; 0] eq_refl eq_refl).
  unfold tab, probs, scores, bigsum, ent. simpl.
  replace (1 * 0 + 0) with 0 by ring. rewrite exp_0.
  do 3 f_equal; [field|f_equal; field].
Qed.

Lemma ln_half : ln (1 / 2) = - ln 2.
Proof. unfold Rdiv. rewrite Rmult_1_l. apply ln_Rinv. lra. Qed.

Lemma ln_2_pos : 0 < ln 2.
Proof. rewrite <- ln_1. apply ln_increasing; lra. Qed.

(** C2, at the failing input.  One sample with the single feature 1, both
    classes marked possible and the weights zero: the two classes are
    equally probable, so [T * p] has a tie.  The code returns the loss 0
    and the gradient [1/2, 1/2]; with the hardmax that splits the mass on
    ties, [-sum(D * logSoftmax(X.W))] is ln 2 and [X^T.(p - D)] is
    [0, 0]. *)
Theorem OSL_tie_example :
  let s := init 2 "OSL" "GD" None "off" in
  let X := NDArray 1 [[1]] in
  let T := NDArray 2 [[1; 1]] in
  let w := [0; 0] in
  logLoss s w X T = Ok 0 /\
  gradLogLoss s w X T = Ok [1 / 2; 1 / 2] /\
  OSL_loss_spec 2 w X T = ln 2 /\
  OSL_gradient_spec 2 w X T = [0; 0] /\
  0 <> ln 2 /\ [1 / 2; 1 / 2] <> [0; 0].
Proof.
  intros s X T w.
  assert (HD : hardmax (ewise Rmult T (NDArray 2 [[1 / 2; 1 / 2]])) =
               Ok (NDArray 2 [[0; 0]])).
  { apply (hardmax_const_row 2 (1 * (1 / 2))). lia. }
  destruct (OSL_values s 1 1 w X T eq_refl
              (fun H : 2%nat = 0%nat => O_S 1 (eq_sym H))
              eq_refl eq_refl eq_refl) as [D [HD' [_ [HL HG]]]].
  simpl n_classes in HD', HL, HG.
  unfold X, w in HD', HL, HG. rewrite softmax_spec_tie in HD', HG.
  fold X T w in HD', HL, HG.
  rewrite HD in HD'. injection HD' as <-.
  split.
  { rewrite HL. f_equal. unfold logsoftmax_spec. unfold X, w.
    rewrite softmax_spec_tie. unfold sum_all, sum1, ewise, emap. simpl. ring. }
  split.
  { rewrite HG. f_equal.
    unfold ravel, dot, transpose, ewise, tab, bigsum, ent.
    simpl. f_equal; [field|f_equal; field]. }
  split.
  { unfold OSL_loss_spec, logsoftmax_spec. simpl ncols. unfold X, w.
    rewrite softmax_spec_tie. unfold hardmax_spec, sum_all, sum1, ewise, emap.
    simpl. unfold Rmax. destruct (Rle_dec _ _); [|lra].
    destruct (Req_dec_T (1 * (1 / 2)) (1 * (1 / 2))); [|congruence].
    simpl. rewrite ln_half. field. }
  split.
  { unfold OSL_gradient_spec. simpl ncols. unfold X, w.
    rewrite softmax_spec_tie.
    unfold hardmax_spec, ravel, dot, transpose, ewise, tab, bigsum, ent.
    simpl. unfold Rmax. destruct (Rle_dec _ _); [|lra].
    destruct (Req_dec_T (1 * (1 / 2)) (1 * (1 / 2))); [|congruence].
    simpl. f_equal; [field|f_equal; field]. }
  split.
  { pose proof ln_2_pos. lra. }
  intros E. injection E as E _. lra.
Qed.

(** ** The two gradient descents *)

Lemma reshape2_ravel (n c : nat) (A : ndarray) :
  has_shape n c A = true -> reshape2 n c (ravel A) = A.
Proof.
  intros H. rewrite (tab_canon n c A H). apply reshape2_ravel_tab.
Qed.

Lemma has_shape_dot_transpose (n c : nat) (X A : ndarray) :
  has_shape n c A = true ->
  has_shape (ncols X) c (dot (transpose X) A) = true.
Proof.
  intros HA. apply has_shape_spec in HA. destruct HA as [_ [Hc _]].
  unfold dot. rewrite Hc. unfold transpose at 1. rewrite nrows_tab.
  apply has_shape_tab.
Qed.

Lemma scal_shape (a : R) (n c : nat) (A : ndarray) :
  has_shape n c A = true -> has_shape n c (scal a A) = true.
Proof.
  intros HA. rewrite (tab_canon n c A HA), scal_tab. apply has_shape_tab.
Qed.

(** [W - rho*X^T.(A - B)] and [W + rho*X^T.(B - A)] are the same array. *)
Lemma update_sign (n d c : nat) (r : R) (W0 X A B : ndarray) :
  has_shape d c W0 = true -> has_shape n d X = true ->
  has_shape n c A = true -> has_shape n c B = true ->
  ewise Rminus W0 (scal r (dot (transpose X) (ewise Rminus A B))) =
  ewise Rplus W0 (scal r (dot (transpose X) (ewise Rminus B A))).
Proof.
  intros HW HX HA HB.
  rewrite (tab_canon d c W0 HW), (tab_canon n d X HX),
          (tab_canon n c A HA), (tab_canon n c B HB).
  rewrite !ewise_tab, transpose_tab, !dot_tab, !scal_tab, !ewise_tab.
  apply tab_ext; intros k j _ _.
  replace (bigsum n (fun i => ent X i k * (ent B i j - ent A i j)))
    with (- bigsum n (fun i => ent X i k * (ent A i j - ent B i j))).
  - ring.
  - rewrite <- bigsum_opp. apply bigsum_ext; intros i _. ring.
Qed.

Lemma softmax_zero_cols (A : ndarray) :
  ncols A = O -> softmax A = Raise ValueError.
Proof. intros H. unfold softmax, amax1. now rewrite H. Qed.

Create HintDb shape.
#[local] Hint Resolve has_shape_tab ewise_shape scal_shape has_shape_reshape2
  has_shape_softmax_spec has_shape_dot_transpose : shape.

Section GradientDescent.

Variable s : WeakLogisticRegression.
Variable n : nat.
Variables X T : ndarray.

Hypothesis HX : has_shape n (ncols X) X = true.
Hypothesis HT : has_shape n (n_classes s) T = true.

Lemma shape_dot_weights (W0 : ndarray) :
  has_shape (ncols X) (n_classes s) W0 = true ->
  has_shape n (n_classes s) (dot X W0) = true.
Proof using HX.
  intros HW. pose proof (has_shape_dot X W0) as H.
  now rewrite (has_shape_nrows_eq _ _ X HX),
              (has_shape_ncols_eq _ _ W0 HW) in H.
Qed.

(** With no class at all, the first [softmax] of either loop raises. *)
Lemma softmax_no_class (W0 : ndarray) :
  has_shape (ncols X) (n_classes s) W0 = true -> n_classes s = O ->
  softmax (dot X W0) = Raise ValueError.
Proof using Type.
  intros HW Hc. apply softmax_zero_cols. unfold dot. simpl.
  now rewrite (has_shape_ncols_eq _ _ W0 HW).
Qed.

(** On a weight matrix of the right shape the bodies of the two loops
    return the same result. *)
Lemma gd_body_gd2_body (W0 : ndarray) (k : nat) :
  has_shape (ncols X) (n_classes s) W0 = true ->
  gd_body s X T k W0 = gd2_body s X T k W0.
Proof using HX HT.
  intros HW. unfold gd_body, gd2_body, gradLogLoss.
  rewrite (reshape2_ravel _ _ W0 HW).
  destruct (Nat.eq_dec (n_classes s) 0) as [Hc|Hc].
  - now rewrite softmax_no_class.
  - pose proof (shape_dot_weights W0 HW) as HS.
    rewrite (softmax_ok _ _ _ HS Hc). simpl rbind.
    pose proof (has_shape_softmax_spec _ _ _ HS) as Hp.
    set (p := softmax_spec (dot X W0)) in *.
    destruct (is_OSL s).
    + destruct (hardmax_total n (n_classes s) (ewise Rmult T p))
        as [D [HD HsD]]; auto with shape.
      rewrite HD. simpl rbind.
      rewrite (reshape2_ravel (ncols X) (n_classes s)) by eauto with shape.
      destruct (getitem_params s) as [pr|e]; simpl; [|reflexivity].
      f_equal. now apply (update_sign n (ncols X) (n_classes s)).
    + simpl rbind.
      rewrite (reshape2_ravel (ncols X) (n_classes s)) by eauto with shape.
      destruct (getitem_params s) as [pr|e]; simpl; [|reflexivity].
      f_equal. now apply (update_sign n (ncols X) (n_classes s)).
Qed.

(** The loop of [gd2] keeps the shape of the weight matrix. *)
Lemma gd2_body_shape (W0 W1 : ndarray) (k : nat) :
  has_shape (ncols X) (n_classes s) W0 = true ->
  gd2_body s X T k W0 = Ok W1 ->
  has_shape (ncols X) (n_classes s) W1 = true.
Proof using HX HT.
  intros HW. unfold gd2_body.
  destruct (Nat.eq_dec (n_classes s) 0) as [Hc|Hc].
  - now rewrite softmax_no_class.
  - pose proof (shape_dot_weights W0 HW) as HS.
    rewrite (softmax_ok _ _ _ HS Hc). simpl rbind.
    pose proof (has_shape_softmax_spec _ _ _ HS) as Hp.
    set (p := softmax_spec (dot X W0)) in *.
    destruct (is_OSL s).
    + destruct (hardmax_total n (n_classes s) (ewise Rmult T p))
        as [D [HD HsD]]; auto with shape.
      rewrite HD. simpl rbind.
      destruct (getitem_params s) as [pr|e]; simpl; [|discriminate].
      intros [= <-]. eauto 6 with shape.
    + destruct (getitem_params s) as [pr|e]; simpl; [|discriminate].
      intros [= <-]. eauto 6 with shape.
Qed.

Lemma gd_loop_gd2_loop (l : list nat) (W0 : ndarray) :
  has_shape (ncols X) (n_classes s) W0 = true ->
  for_loop l (gd_body s X T) W0 = for_loop l (gd2_body s X T) W0.
Proof using HX HT.
  revert W0. induction l as [|k l IH]; intros W0 HW; [reflexivity|].
  simpl. rewrite (gd_body_gd2_body W0 k HW).
  destruct (gd2_body s X T k W0) as [W1|e] eqn:E; simpl; [|reflexivity].
  apply IH. now apply (gd2_body_shape W0 W1 k).
Qed.

End GradientDescent.

Lemma has_shape_ncols (n d : nat) (X : ndarray) :
  has_shape n d X = true -> has_shape n (ncols X) X = true.
Proof.
  intros H. pose proof H as H'. apply has_shape_spec in H'.
  destruct H' as [_ [-> _]]. exact H.
Qed.

Lemma length_draw (m : nat) (g : RandomState) : length (fst (draw m g)) = m.
Proof. unfold draw; simpl. now rewrite length_map, length_seq. Qed.

(** C3.  Started from the same state of the random generator, hence from
    the same initial weight matrix, [gd] and [gd2] return the same result
    for every learning rate and every number of iterations: the weight
    matrices of the two descents agree after every iteration. *)
Theorem gd_gd2_same_trajectory (n d : nat) (X T : ndarray) (w : world) :
  has_shape n d X = true ->
  has_shape n (n_classes (self w)) T = true ->
  gd X T w = gd2 X T w /\
  forall (l : list nat) (W0 : ndarray),
    has_shape d (n_classes (self w)) W0 = true ->
    for_loop l (gd_body (self w) X T) W0 =
    for_loop l (gd2_body (self w) X T) W0.
Proof.
  intros HX HT. pose proof (has_shape_ncols n d X HX) as HX'.
  assert (Hd : ncols X = d) by (apply has_shape_spec in HX; tauto).
  split.
  - unfold gd, gd2, bind, get_self, randn2, randn1, lift, ret. simpl.
    destruct (getitem_params (self w)) as [p|e]; [|reflexivity].
    rewrite (gd_loop_gd2_loop (self w) n X T HX' HT); [reflexivity|].
    apply has_shape_reshape2. now rewrite length_map, length_seq.
  - intros l W0 HW. apply (gd_loop_gd2_loop (self w) n X T HX' HT).
    now rewrite Hd.
Qed.

Lemma gd_gd2_same_trajectory_witness :
  let w := World (init 2 "OSL" "GD" (Some {| n_it := 5; rho := 1 / 10 |}) "off")
                 {| stream := fun k => INR k; pos := 0 |} [] in
  let X := NDArray 1 [[1]; [2]] in
  let T := NDArray 2 [[1; 1]; [0; 1]] in
  gd X T w = gd2 X T w.
Proof.
  intros w X T.
  exact (proj1 (gd_gd2_same_trajectory 2 1 X T w eq_refl eq_refl)).
Defined.

(** ** Determinism of [fit] with gradient descent *)

(** On well-shaped data with at least one class the gradient is
    computed: [gradLogLoss] does not raise. *)
Lemma gradLogLoss_total (s : WeakLogisticRegression) (n d : nat)
  (w : list R) (X T : ndarray) :
  n_classes s <> O ->
  has_shape n d X = true -> has_shape n (n_classes s) T = true ->
  length w = (d * n_classes s)%nat ->
  exists g, gradLogLoss s w X T = Ok g /\ length g = (d * n_classes s)%nat.
Proof.
  intros Hc HX HT Hw. destruct (is_OSL s) eqn:Hm.
  - destruct (OSL_values s n d w X T Hm Hc HX HT Hw) as [D [_ [HsD [_ HG]]]].
    eexists. split; [exact HG|].
    rewrite (length_ravel_dot n (n_classes s)).
    + apply has_shape_spec in HX. destruct HX as [_ [-> _]]. reflexivity.
    + apply ewise_shape; [|assumption].
      apply has_shape_softmax_spec. now apply shape_scores.
  - eexists. split; [now apply (gradLogLoss_WL_value s n d X T)|].
    apply length_ravel_tab.
Qed.

Section ExactSteps.

Variable s : WeakLogisticRegression.
Variables n d : nat.
Variable p : Params.
Variables X T : ndarray.

Hypothesis Hp : params s = Some p.
Hypothesis Hc : n_classes s <> O.
Hypothesis HX : has_shape n d X = true.
Hypothesis HT : has_shape n (n_classes s) T = true.

(** On a weight matrix of the right shape the body of the loop of [gd]
    performs the update [gd_step] and keeps the shape. *)
Lemma gd_body_step (W0 : ndarray) (k : nat) :
  has_shape d (n_classes s) W0 = true ->
  exists g,
    gradLogLoss s (ravel W0) X T = Ok g /\
    gd_step s X T W0 =
      ewise Rminus W0 (scal (rho p) (reshape2 d (n_classes s) g)) /\
    gd_body s X T k W0 = Ok (gd_step s X T W0) /\
    has_shape d (n_classes s) (gd_step s X T W0) = true.
Proof using Hp Hc HX HT.
  intros HW. pose proof (has_shape_ncols_eq n d X HX) as Hd.
  assert (Hlen : length (ravel W0) = (d * n_classes s)%nat).
  { rewrite (tab_canon _ _ W0 HW). apply length_ravel_tab. }
  destruct (gradLogLoss_total s n d (ravel W0) X T Hc HX HT Hlen)
    as [g [Hg Hlg]].
  exists g. split; [exact Hg|].
  assert (Hstep : gd_step s X T W0 =
                  ewise Rminus W0 (scal (rho p) (reshape2 d (n_classes s) g))).
  { unfold gd_step. now rewrite Hg, Hp, Hd. }
  split; [exact Hstep|]. split.
  - unfold gd_body, getitem_params. rewrite Hg, Hp, Hd. simpl.
    now rewrite Hstep.
  - rewrite Hstep. auto with shape.
Qed.

Lemma iter_gd_step_shape (W0 : ndarray) (k : nat) :
  has_shape d (n_classes s) W0 = true ->
  has_shape d (n_classes s) (Nat.iter k (gd_step s X T) W0) = true.
Proof using Hp Hc HX HT.
  intros HW. induction k as [|k IH]; [exact HW|].
  simpl. destruct (gd_body_step _ 0 IH) as [g [_ [_ [_ Hs]]]]. exact Hs.
Qed.

(** The loop of [gd] runs its body once per element of the range: it
    performs exactly that many updates. *)
Lemma gd_loop_steps (l : list nat) (W0 : ndarray) :
  has_shape d (n_classes s) W0 = true ->
  for_loop l (gd_body s X T) W0 =
  Ok (Nat.iter (length l) (gd_step s X T) W0).
Proof using Hp Hc HX HT.
  revert W0. induction l as [|k l IH]; intros W0 HW; [reflexivity|].
  destruct (gd_body_step W0 k HW) as [g [_ [_ [Hb Hs]]]].
  simpl for_loop. rewrite Hb. simpl rbind. rewrite (IH _ Hs).
  simpl length. now rewrite Nat.iter_succ_r.
Qed.

End ExactSteps.

(** What [fit] learns with the optimizer ['GD']. *)
Lemma learned_fit_GD (minimize : Minimizer) (X : ndarray) (Y : labels)
  (w : world) :
  optimizer (self w) = "GD"%string ->
  learned (fit minimize X Y w) =
    (T <- targets (self w) Y ;;
     p <- getitem_params (self w) ;;
     Wf <- for_loop (range (n_it p)) (gd_body (self w) X T)
             (reshape2 (ncols X) (n_classes (self w))
                (fst (draw (ncols X * n_classes (self w)) (np_random w)))) ;;
     Ok (Some Wf))%res /\
  np_random (snd (fit minimize X Y w)) =
    match targets (self w) Y with
    | Ok _ => snd (draw (ncols X * n_classes (self w)) (np_random w))
    | Raise _ => np_random w
    end.
Proof.
  intros Hopt. unfold learned, targets. unfold_methods. rewrite Hopt. simpl.
  unfold getitem_params; simpl.
  assert (Hb : forall T k W0,
             gd_body
               {| sound := sound (self w); params := params (self w);
                  method := method (self w); optimizer := "GD";
                  n_classes := n_classes (self w);
                  classes_ := classes_ (self w);
                  n_dim := Some (ncols X); W := W (self w) |} X T k W0 =
             gd_body (self w) X T k W0).
  { intros. now apply gd_body_config. }
  destruct Y as [v|T0]; simpl.
  - destruct (index2bin v (n_classes (self w))) as [T|e]; simpl;
      [|split; reflexivity].
    destruct (params (self w)) as [p|]; simpl; [|split; reflexivity].
    rewrite (for_loop_ext _ _ _ _ (Hb T)).
    destruct (for_loop _ _ _); simpl; split; reflexivity.
  - destruct (params (self w)) as [p|]; simpl; [|split; reflexivity].
    rewrite (for_loop_ext _ _ _ _ (Hb T0)).
    destruct (for_loop _ _ _); simpl; split; reflexivity.
Qed.

(** C8.  Two calls of [fit] with the optimizer ['GD'], on objects
    constructed with the same arguments, from the same state of the random
    generator and on the same data, learn the same weight matrix (or raise
    the same exception), whatever the objects held before.  On well-shaped
    data with at least one class the learned matrix is the initial matrix
    after exactly [n_it] updates [W <- W - rho*G], each with the gradient
    at the current matrix: no update is skipped and the loop does not stop
    early. *)
Theorem fit_gd_deterministic (minimize1 minimize2 : Minimizer)
  (s1 s2 : WeakLogisticRegression) (g : RandomState)
  (out1 out2 : list printed) (X : ndarray) (Y : labels) :
  optimizer s1 = "GD"%string -> same_config s1 s2 ->
  let r1 := fit minimize1 X Y (World s1 g out1) in
  let r2 := fit minimize2 X Y (World s2 g out2) in
  learned r1 = learned r2 /\
  np_random (snd r1) = np_random (snd r2) /\
  forall (n d : nat) (p : Params) (T : ndarray),
    params s1 = Some p -> n_classes s1 <> O ->
    has_shape n d X = true ->
    targets s1 Y = Ok T -> has_shape n (n_classes s1) T = true ->
    let W0 := reshape2 d (n_classes s1) (fst (draw (d * n_classes s1) g)) in
    let steps := Z.to_nat (n_it p) in
    learned r1 = Ok (Some (Nat.iter steps (gd_step s1 X T) W0)) /\
    forall k, (k < steps)%nat ->
      exists gk,
        gradLogLoss s1 (ravel (Nat.iter k (gd_step s1 X T) W0)) X T = Ok gk /\
        Nat.iter (S k) (gd_step s1 X T) W0 =
        ewise Rminus (Nat.iter k (gd_step s1 X T) W0)
                     (scal (rho p) (reshape2 d (n_classes s1) gk)).
Proof.
  intros Hopt [Hp [Hm [Hc Ho]]] r1 r2.
  destruct (learned_fit_GD minimize1 X Y (World s1 g out1) Hopt) as [L1 G1].
  destruct (learned_fit_GD minimize2 X Y (World s2 g out2)
              ltac:(simpl; congruence)) as [L2 G2].
  fold r1 in L1, G1. fold r2 in L2, G2. simpl in L1, G1, L2, G2.
  assert (HT : targets s2 Y = targets s1 Y).
  { unfold targets. now rewrite Hc. }
  assert (Hg : getitem_params s2 = getitem_params s1).
  { unfold getitem_params. now rewrite Hp. }
  assert (Hb : forall T k W0, gd_body s2 X T k W0 = gd_body s1 X T k W0).
  { intros. apply gd_body_config; try congruence.
    unfold is_OSL. now rewrite Hm. }
  split; [|split].
  - rewrite L1, L2, HT, Hg, <- Hc.
    destruct (targets s1 Y) as [T|e]; simpl; [|reflexivity].
    destruct (getitem_params s1) as [p|e]; simpl; [|reflexivity].
    now rewrite (for_loop_ext _ _ _ _ (Hb T)).
  - rewrite G1, G2, HT, <- Hc. reflexivity.
  - intros n d p T Hp1 Hc1 HX HT1 HsT W0 steps.
    assert (Hd : ncols X = d) by (apply has_shape_spec in HX; tauto).
    assert (HW0 : has_shape d (n_classes s1) W0 = true).
    { apply has_shape_reshape2. apply length_draw. }
    split.
    + rewrite L1, HT1. unfold getitem_params. rewrite Hp1. simpl rbind.
      rewrite Hd. fold W0.
      rewrite (gd_loop_steps s1 n d p X T Hp1 Hc1 HX HsT _ W0 HW0).
      simpl rbind. unfold range. now rewrite length_seq.
    + intros k _.
      pose proof (iter_gd_step_shape s1 n d p X T Hp1 Hc1 HX HsT W0 k HW0)
        as Hk.
      destruct (gd_body_step s1 n d p X T Hp1 Hc1 HX HsT _ 0 Hk)
        as [gk [Hgk [Hstep _]]].
      exists gk. split; [exact Hgk|]. simpl Nat.iter. exact Hstep.
Qed.

Lemma fit_gd_deterministic_witness :
  let s1 := init 2 "WL" "GD" (Some {| n_it := 2; rho := 1 / 10 |}) "off" in
  let s2 := init 2 "WL" "GD" (Some {| n_it := 2; rho := 1 / 10 |}) "on" in
  let g := {| stream := fun k => INR k; pos := 0 |} in
  let X := NDArray 1 [[1]; [2]] in
  let T := NDArray 2 [[1; 0]; [0; 1]] in
  let r1 := fit failing_minimizer X (Y2 T) (World s1 g []) in
  let r2 := fit failing_minimizer X (Y2 T) (World s2 g [PBool true]) in
  learned r1 = learned r2 /\
  learned r1 =
    Ok (Some (Nat.iter 2 (gd_step s1 X T)
                (reshape2 1 2 (fst (draw 2 g))))).
Proof.
  intros s1 s2 g X T r1 r2.
  destruct (fit_gd_deterministic failing_minimizer failing_minimizer
              s1 s2 g [] [PBool true] X (Y2 T) eq_refl
              (conj eq_refl (conj eq_refl (conj eq_refl eq_refl))))
    as [H1 [_ H3]].
  split; [exact H1|].
  exact (proj1 (H3 2%nat 1%nat {| n_it := 2; rho := 1 / 10 |} T eq_refl
                  (fun H : 2%nat = 0%nat => O_S 1 (eq_sym H))
                  eq_refl eq_refl eq_refl)).
Defined.

(** * Further properties of the code *)

(** ** Softmax as a probability distribution *)

Lemma bigsum_le (n : nat) (f g : nat -> R) :
  (forall i, (i < n)%nat -> f i <= g i) -> bigsum n f <= bigsum n g.
Proof.
  induction n as [|n IH]; intros H; [rewrite !bigsum_0; lra|].
  rewrite !bigsum_S.
  assert (bigsum n f <= bigsum n g) by (apply IH; intros; apply H; lia).
  specialize (H n ltac:(lia)). lra.
Qed.

Lemma bigsum_nonneg (n : nat) (f : nat -> R) :
  (forall i, (i < n)%nat -> 0 <= f i) -> 0 <= bigsum n f.
Proof.
  intros H. rewrite <- (bigsum_const0 n). now apply bigsum_le.
Qed.

Lemma bigsum_ge_term (n : nat) (f : nat -> R) (j : nat) :
  (forall i, (i < n)%nat -> 0 <= f i) -> (j < n)%nat -> f j <= bigsum n f.
Proof.
  induction n as [|n IH]; intros H Hj; [lia|].
  rewrite bigsum_S.
  assert (0 <= bigsum n f) by (apply bigsum_nonneg; intros; apply H; lia).
  destruct (Nat.eq_dec j n) as [->|Hne].
  - lra.
  - assert (f j <= bigsum n f) by (apply IH; [intros; apply H|]; lia).
    specialize (H n ltac:(lia)). lra.
Qed.

Lemma softmax_entry_bounds (c : nat) (g : nat -> R) (j : nat) :
  (j < c)%nat ->
  0 < exp (g j) / bigsum c (fun k => exp (g k)) <= 1.
Proof.
  intros Hj. assert (Hc : c <> O) by lia.
  pose proof (sumexp_pos c g Hc) as Hs.
  pose proof (bigsum_ge_term c (fun k => exp (g k)) j
                (fun i _ => Rlt_le _ _ (exp_pos (g i))) Hj) as Hle.
  simpl in Hle. split.
  - apply Rdiv_lt_0_compat; [apply exp_pos|assumption].
  - apply Rmult_le_reg_r with (r := bigsum c (fun k => exp (g k)));
      [assumption|].
    unfold Rdiv. rewrite Rmult_assoc, Rinv_l by lra. lra.
Qed.

Lemma softmax_row_sum (c : nat) (g : nat -> R) :
  c <> O ->
  bigsum c (fun j => exp (g j) / bigsum c (fun k => exp (g k))) = 1.
Proof.
  intros Hc. pose proof (sumexp_pos c g Hc) as Hs.
  unfold Rdiv. rewrite bigsum_scal_r. field. lra.
Qed.

Lemma rows_tab_sum (n c : nat) (f : nat -> nat -> R) (v : R) :
  (forall i, (i < n)%nat -> bigsum c (f i) = v) ->
  Forall (fun r => vsum r = v) (rows (tab n c f)).
Proof.
  intros H. apply Forall_forall. intros r Hr. unfold tab in Hr; simpl in Hr.
  apply in_map_iff in Hr. destruct Hr as [i [<- Hi]]. apply in_seq in Hi.
  apply H. lia.
Qed.

(** X1.  On an array with at least one column [softmax] returns an array
    of the same shape whose rows are probability distributions: every
    entry lies between 0 and 1 and every row sums to 1. *)
Theorem softmax_distribution (n c : nat) (A : ndarray) :
  has_shape n c A = true -> c <> O ->
  exists P,
    softmax A = Ok P /\
    has_shape n c P = true /\
    Forall (fun r => vsum r = 1) (rows P) /\
    forall i j, (i < n)%nat -> (j < c)%nat -> 0 <= ent P i j <= 1.
Proof.
  intros HA Hc. exists (softmax_spec A).
  split; [now apply (softmax_ok n c)|].
  split; [now apply has_shape_softmax_spec|].
  rewrite (tab_canon n c A HA), softmax_spec_tab. split.
  - apply rows_tab_sum. intros i _. now apply softmax_row_sum.
  - intros i j Hi Hj. rewrite ent_tab by assumption.
    pose proof (softmax_entry_bounds c (ent A i) j Hj). lra.
Qed.

Lemma softmax_distribution_witness :
  exists P,
    softmax (NDArray 2 [[1; 2]; [0; 0]]) = Ok P /\
    has_shape 2 2 P = true /\
    Forall (fun r => vsum r = 1) (rows P) /\
    forall i j, (i < 2)%nat -> (j < 2)%nat -> 0 <= ent P i j <= 1.
Proof.
  apply (softmax_distribution 2 2 (NDArray 2 [[1; 2]; [0; 0]]) eq_refl).
  discriminate.
Defined.

Lemma colop_canon (op : R -> R -> R) (n c : nat) (A : ndarray) (v : list R) :
  has_shape n c A = true -> length v = n ->
  colop op A v = tab n c (fun i j => op (ent A i j) (nth i v 0)).
Proof.
  intros HA Hv.
  transitivity (colop op (tab n c (ent A)) (map (fun i => nth i v 0) (seq 0 n))).
  - rewrite <- (tab_canon n c A HA). f_equal. subst n. apply list_tab.
  - apply colop_tab.
Qed.

(** X2.  [softmax] is invariant under translation of the rows: adding to
    every entry of row [i] the same number [v[i]] does not change the
    result (nor the exception, for an array without columns). *)
Theorem softmax_translation_invariant (n c : nat) (A : ndarray)
  (v : list R) :
  has_shape n c A = true -> length v = n ->
  softmax (colop Rplus A v) = softmax A.
Proof.
  intros HA Hv. destruct (Nat.eq_dec c 0) as [Hc|Hc].
  - rewrite !softmax_zero_cols; try reflexivity;
      simpl; rewrite (has_shape_ncols_eq n c A HA); assumption.
  - rewrite (colop_canon Rplus n c A v HA Hv).
    rewrite softmax_tab, (softmax_ok n c A HA Hc) by assumption.
    unfold softmax_spec.
    rewrite (has_shape_nrows_eq n c A HA), (has_shape_ncols_eq n c A HA).
    f_equal. apply tab_ext; intros i j _ _.
    rewrite <- (softmax_shift c (ent A i) (ent A i j) (- nth i v 0) Hc).
    f_equal; [f_equal; ring|].
    apply bigsum_ext; intros k _. f_equal. ring.
Qed.

Lemma softmax_translation_invariant_witness :
  softmax (colop Rplus (NDArray 2 [[1; 2]; [0; 0]]) [5; -3]) =
  softmax (NDArray 2 [[1; 2]; [0; 0]]).
Proof.
  apply (softmax_translation_invariant 2 2 (NDArray 2 [[1; 2]; [0; 0]])
           [5; -3] eq_refl eq_refl).
Defined.

Lemma ln_le_0 (u : R) : 0 < u <= 1 -> ln u <= 0.
Proof.
  intros [H0 H1]. destruct (Rle_lt_or_eq_dec _ _ H1) as [Hlt| ->].
  - rewrite <- ln_1. left. now apply ln_increasing.
  - rewrite ln_1. lra.
Qed.

(** X3.  On an array with at least one column, [np.exp] of what
    [logsoftmax] returns is what [softmax] returns, and all the entries
    of [logsoftmax] are non-positive. *)
Theorem exp_logsoftmax_is_softmax (n c : nat) (A : ndarray) :
  has_shape n c A = true -> c <> O ->
  exists P L,
    softmax A = Ok P /\ logsoftmax A = Ok L /\
    has_shape n c L = true /\
    emap exp L = P /\
    forall i j, (i < n)%nat -> (j < c)%nat -> ent L i j <= 0.
Proof.
  intros HA Hc. exists (softmax_spec A), (logsoftmax_spec A).
  split; [now apply (softmax_ok n c)|].
  split; [now apply (logsoftmax_ok n c)|].
  split.
  { unfold logsoftmax_spec.
    rewrite (tab_canon n c A HA), softmax_spec_tab, emap_tab.
    apply has_shape_tab. }
  split; [now apply (exp_logsoftmax_spec n c)|].
  intros i j Hi Hj. unfold logsoftmax_spec.
  rewrite (tab_canon n c A HA), softmax_spec_tab, emap_tab.
  rewrite ent_tab by assumption. apply ln_le_0.
  now apply (softmax_entry_bounds c (ent A i)).
Qed.

Lemma exp_logsoftmax_is_softmax_witness :
  exists P L,
    softmax (NDArray 2 [[1; 2]]) = Ok P /\
    logsoftmax (NDArray 2 [[1; 2]]) = Ok L /\
    has_shape 1 2 L = true /\
    emap exp L = P /\
    forall i j, (i < 1)%nat -> (j < 2)%nat -> ent L i j <= 0.
Proof.
  apply (exp_logsoftmax_is_softmax 1 2 (NDArray 2 [[1; 2]]) eq_refl).
  discriminate.
Defined.

(** ** Hardmax marks the strict maximum of a row *)

Lemma fold_left_Rmax_ub (l : list R) (a x0 : R) :
  In x0 l -> x0 <= fold_left Rmax l a.
Proof.
  revert a; induction l as [|b l IH]; intros a; simpl; [tauto|].
  intros [->|H].
  - eapply Rle_trans; [apply (Rmax_r a x0)|apply fold_left_Rmax_ge].
  - now apply IH.
Qed.

(** The maximum of a row bounds its entries. *)
Lemma rmax_ge (r : list R) (x0 : R) : In x0 r -> x0 <= rmax r.
Proof.
  destruct r as [|a r]; [simpl; tauto|]. simpl. intros [<-|H].
  - apply fold_left_Rmax_ge.
  - now apply fold_left_Rmax_ub.
Qed.

Lemma count_true_none (P : nat -> bool) (a c : nat) :
  (forall j, (a <= j < a + c)%nat -> P j = false) ->
  count_true (map P (seq a c)) = 0%Z.
Proof.
  revert a; induction c as [|c IH]; intros a H; [reflexivity|].
  simpl seq. simpl map. rewrite count_true_cons, (H a) by lia.
  rewrite IH by (intros; apply H; lia). reflexivity.
Qed.

Lemma count_true_one (P : nat -> bool) (a c j : nat) :
  (a <= j < a + c)%nat -> P j = true ->
  (forall j', (a <= j' < a + c)%nat -> j' <> j -> P j' = false) ->
  count_true (map P (seq a c)) = 1%Z.
Proof.
  revert a; induction c as [|c IH]; intros a Hj Pj H; [lia|].
  simpl seq. simpl map. rewrite count_true_cons.
  destruct (Nat.eq_dec a j) as [->|Hne].
  - rewrite Pj, count_true_none by (intros; apply H; lia). reflexivity.
  - rewrite (H a) by lia.
    rewrite IH; [reflexivity|lia|assumption|intros; apply H; lia].
Qed.

Lemma count_true_two (P : nat -> bool) (a c j j' : nat) :
  (a <= j)%nat -> (j < j')%nat -> (j' < a + c)%nat ->
  P j = true -> P j' = true ->
  (2 <= count_true (map P (seq a c)))%Z.
Proof.
  revert a; induction c as [|c IH]; intros a Ha Hjj Hj' Pj Pj'; [lia|].
  simpl seq. simpl map. rewrite count_true_cons.
  destruct (Nat.eq_dec a j) as [->|Hne].
  - rewrite Pj. simpl Z.b2z.
    assert (1 <= count_true (map P (seq (S j) c)))%Z; [|lia].
    apply count_true_pos. apply in_map_iff. exists j'. split; [assumption|].
    apply in_seq. lia.
  - assert (2 <= count_true (map P (seq (S a) c)))%Z
      by (apply IH; try assumption; lia).
    destruct (P a); simpl Z.b2z; lia.
Qed.

Lemma rmax_attained (c : nat) (f : nat -> R) :
  c <> O -> exists j0, (j0 < c)%nat /\ rmax (map f (seq 0 c)) = f j0.
Proof.
  intros Hc.
  assert (Hin : In (rmax (map f (seq 0 c))) (map f (seq 0 c))).
  { apply rmax_in. destruct c; [congruence|discriminate]. }
  apply in_map_iff in Hin. destruct Hin as [j0 [E Hj0]].
  apply in_seq in Hj0. exists j0. split; [lia|now symmetry].
Qed.

Lemma rmax_bound (c : nat) (f : nat -> R) (j : nat) :
  (j < c)%nat -> f j <= rmax (map f (seq 0 c)).
Proof.
  intros Hj. apply rmax_ge. apply in_map. apply in_seq. lia.
Qed.

(** An entry of [hardmax] is 0 or 1, and it is 1 exactly at a strict
    maximum of the row. *)
Lemma hardmax_entry_spec (c : nat) (f : nat -> R) (j : nat) :
  (j < c)%nat ->
  (hardmax_entry c f j = 0 \/ hardmax_entry c f j = 1) /\
  (hardmax_entry c f j = 1 <->
   forall j', (j' < c)%nat -> j' <> j -> f j' < f j).
Proof.
  intros Hj. assert (Hc : c <> O) by lia.
  set (m := rmax (map f (seq 0 c))).
  set (P := fun j' => if Req_dec_T (f j') m then true else false).
  assert (HP : forall j', P j' = true <-> f j' = m).
  { intros j'. unfold P. destruct (Req_dec_T (f j') m); split;
      congruence. }
  assert (Hstrict : (forall j', (j' < c)%nat -> j' <> j -> f j' < f j) ->
                    hardmax_entry c f j = 1).
  { intros Hs. destruct (rmax_attained c f Hc) as [j0 [Hj0 Em]].
    fold m in Em.
    assert (Ej : m = f j).
    { destruct (Nat.eq_dec j0 j) as [->|Hne]; [assumption|].
      pose proof (Hs j0 Hj0 Hne). pose proof (rmax_bound c f j Hj).
      fold m in H0. lra. }
    rewrite hardmax_entry_unique.
    - fold m. destruct (Req_dec_T (f j) m); [reflexivity|congruence].
    - fold m. apply (count_true_one P 0 c j); [lia|now apply HP|].
      intros j' Hj' Hne.
      destruct (P j') eqn:E; [|reflexivity].
      apply HP in E. specialize (Hs j' ltac:(lia) Hne). lra. }
  pose proof (hardmax_divisor_pos (map f (seq 0 c))) as Hk.
  rewrite map_map in Hk. fold m in Hk.
  specialize (Hk ltac:(destruct c; [congruence|discriminate])).
  change (1 <= count_true (map P (seq 0 c)))%Z in Hk.
  assert (Hcases : count_true (map P (seq 0 c)) = 1%Z \/
                   (2 <= count_true (map P (seq 0 c)))%Z) by lia.
  destruct Hcases as [H1|H2].
  - pose proof (hardmax_entry_unique c f j H1) as Eu. fold m in Eu.
    rewrite Eu in Hstrict |- *. split.
    + destruct (Req_dec_T (f j) m); [now right|now left].
    + split; [|exact Hstrict].
      destruct (Req_dec_T (f j) m) as [E|E]; [|lra].
      intros _ j' Hj' Hne.
      assert (Pj' : P j' = false).
      { destruct (P j') eqn:E'; [|reflexivity]. exfalso.
        assert (Pj : P j = true) by now apply HP.
        destruct (Nat.lt_total j j') as [L|[L|L]]; [|congruence|].
        - pose proof (count_true_two P 0 c j j' ltac:(lia) L ltac:(lia)
                        Pj E'). lia.
        - pose proof (count_true_two P 0 c j' j ltac:(lia) L ltac:(lia)
                        E' Pj). lia. }
      assert (f j' <> m).
      { intros E'. apply HP in E'. congruence. }
      pose proof (rmax_bound c f j' Hj'). fold m in H0. lra.
  - rewrite (hardmax_entry_tie c f j H2). split; [now left|].
    split; [lra|]. intros Hs. specialize (Hstrict Hs).
    rewrite (hardmax_entry_tie c f j H2) in Hstrict. lra.
Qed.

(** X4.  On an array with at least one column [hardmax] returns an array
    of the same shape with entries 0 and 1, and an entry is 1 exactly
    where the input is strictly larger than every other entry of its
    row. *)
Theorem hardmax_marks_strict_maximum (n c : nat) (A : ndarray) :
  has_shape n c A = true -> c <> O ->
  exists D,
    hardmax A = Ok D /\ has_shape n c D = true /\
    forall i j, (i < n)%nat -> (j < c)%nat ->
      (ent D i j = 0 \/ ent D i j = 1) /\
      (ent D i j = 1 <->
       forall j', (j' < c)%nat -> j' <> j -> ent A i j' < ent A i j).
Proof.
  intros HA Hc.
  exists (tab n c (fun i => hardmax_entry c (ent A i))).
  split; [rewrite (tab_canon n c A HA) at 1; now apply hardmax_tab|].
  split; [apply has_shape_tab|].
  intros i j Hi Hj. rewrite ent_tab by assumption.
  now apply hardmax_entry_spec.
Qed.

Lemma hardmax_marks_strict_maximum_witness :
  exists D,
    hardmax (NDArray 2 [[1; 2]; [3; 3]]) = Ok D /\
    has_shape 2 2 D = true /\
    forall i j, (i < 2)%nat -> (j < 2)%nat ->
      (ent D i j = 0 \/ ent D i j = 1) /\
      (ent D i j = 1 <->
       forall j', (j' < 2)%nat -> j' <> j ->
         ent (NDArray 2 [[1; 2]; [3; 3]]) i j' <
         ent (NDArray 2 [[1; 2]; [3; 3]]) i j).
Proof.
  apply (hardmax_marks_strict_maximum 2 2 (NDArray 2 [[1; 2]; [3; 3]])
           eq_refl).
  discriminate.
Defined.

(** ** Prediction *)

Lemma argmax_from_spec (r pre : list R) (best : nat) (bv : R) :
  (best < length pre)%nat -> nth best pre 0 = bv ->
  (forall k, (k < length pre)%nat -> nth k pre 0 <= bv) ->
  (forall k, (k < best)%nat -> nth k pre 0 < bv) ->
  let b := argmax_from r (length pre) best bv in
  let l := pre ++ r in
  (b < length l)%nat /\
  (forall k, (k < length l)%nat -> nth k l 0 <= nth b l 0) /\
  (forall k, (k < b)%nat -> nth k l 0 < nth b l 0).
Proof.
  revert pre best bv. induction r as [|a r IH]; intros pre best bv Hb Hv Hle Hlt.
  - simpl. rewrite app_nil_r, Hv. auto.
  - simpl argmax_from.
    assert (Hlen : length (pre ++ [a]) = S (length pre))
      by (rewrite length_app; simpl; lia).
    assert (Happ : pre ++ a :: r = (pre ++ [a]) ++ r)
      by now rewrite <- app_assoc.
    rewrite Happ, <- Hlen.
    destruct (Rlt_dec bv a) as [Hlt'|Hge].
    + replace (length pre) with (length (pre ++ [a]) - 1)%nat at 2 by lia.
      apply IH.
      * lia.
      * replace (length (pre ++ [a]) - 1)%nat with (length pre) by lia.
        now rewrite nth_middle.
      * intros k Hk. destruct (Nat.eq_dec k (length pre)) as [->|Hne].
        -- rewrite nth_middle. lra.
        -- rewrite app_nth1 by lia. specialize (Hle k ltac:(lia)). lra.
      * intros k Hk. rewrite app_nth1 by lia.
        specialize (Hle k ltac:(lia)). lra.
    + apply IH.
      * lia.
      * now rewrite app_nth1.
      * intros k Hk. destruct (Nat.eq_dec k (length pre)) as [->|Hne].
        -- rewrite nth_middle. lra.
        -- rewrite app_nth1 by lia. apply Hle. lia.
      * intros k Hk. rewrite app_nth1 by lia. now apply Hlt.
Qed.

(** [argmax] returns the first index at which a non-empty row takes its
    maximum. *)
Lemma argmax_spec (l : list R) :
  l <> [] ->
  (argmax l < length l)%nat /\
  (forall k, (k < length l)%nat -> nth k l 0 <= nth (argmax l) l 0) /\
  (forall k, (k < argmax l)%nat -> nth k l 0 < nth (argmax l) l 0).
Proof.
  destruct l as [|a r]; [congruence|]. intros _.
  apply (argmax_from_spec r [a] 0 a); simpl; try lia; try reflexivity.
  intros k Hk. assert (k = 0)%nat as -> by lia. lra.
Qed.

Lemma argmax_from_map (h : R -> R) (r : list R) (i best : nat) (bv : R) :
  (forall u v, u < v <-> h u < h v) ->
  argmax_from (map h r) i best (h bv) = argmax_from r i best bv.
Proof.
  intros Hh. revert i best bv. induction r as [|a r IH]; intros i best bv;
    [reflexivity|].
  simpl. destruct (Rlt_dec (h bv) (h a)) as [H1|H1];
    destruct (Rlt_dec bv a) as [H2|H2]; try apply IH.
  - apply Hh in H1. contradiction.
  - apply Hh in H2. contradiction.
Qed.

(** A strictly increasing function does not move the arg-max. *)
Lemma argmax_map (h : R -> R) (r : list R) :
  (forall u v, u < v <-> h u < h v) -> argmax (map h r) = argmax r.
Proof.
  intros Hh. destruct r as [|a r]; [reflexivity|].
  simpl. now apply argmax_from_map.
Qed.

Lemma div_pos_increasing (S0 : R) :
  0 < S0 -> forall u v, u < v <-> exp u / S0 < exp v / S0.
Proof.
  intros HS u v. split; intros H.
  - apply Rmult_lt_compat_r; [now apply Rinv_0_lt_compat|].
    now apply exp_increasing.
  - apply exp_lt_inv.
    apply Rmult_lt_reg_r with (r := / S0); [now apply Rinv_0_lt_compat|].
    exact H.
Qed.

(** The arg-max of the rows of softmax is the arg-max of the rows of its
    argument. *)
Lemma argmax_softmax_spec (n c : nat) (f : nat -> nat -> R) :
  c <> O ->
  map argmax (rows (softmax_spec (tab n c f))) =
  map argmax (rows (tab n c f)).
Proof.
  intros Hc. rewrite softmax_spec_tab. unfold tab; simpl.
  rewrite !map_map. apply map_ext; intros i.
  rewrite <- (map_map (f i)
                (fun u => exp u / bigsum c (fun k => exp (f i k)))).
  apply argmax_map. apply div_pos_increasing.
  now apply (sumexp_pos c (f i)).
Qed.

Lemma argmax_softmax_shape (n c : nat) (A : ndarray) :
  has_shape n c A = true -> c <> O ->
  map argmax (rows (softmax_spec A)) = map argmax (rows A).
Proof.
  intros HA Hc. pose proof (argmax_softmax_spec n c (ent A) Hc) as H.
  rewrite <- (tab_canon n c A HA) in H. exact H.
Qed.






(** ** What [fit] does to the object and to the generator *)

(** [fit] with one of the two built-in optimizers, path by path. *)
Lemma fit_descent (minimize : Minimizer) (X : ndarray) (Y : labels)
  (w : world) :
  optimizer (self w) = "GD"%string \/ optimizer (self w) = "GD2"%string ->
  let s := self w in
  let s1 := with_n_dim s (ncols X) in
  let g1 := snd (draw (ncols X * n_classes s) (np_random w)) in
  fit minimize X Y w =
  match targets s Y with
  | Raise e => (Raise e, World s1 (np_random w) (stdout w))
  | Ok T =>
      match params s with
      | None => (Raise TypeError, World s1 g1 (stdout w))
      | Some p =>
          match for_loop (range (n_it p)) (descent_body s X T)
                         (initial_W s X (np_random w)) with
          | Ok Wf => (Ok (with_W s1 Wf), World (with_W s1 Wf) g1 (stdout w))
          | Raise e => (Raise e, World s1 g1 (stdout w))
          end
      end
  end.
Proof.
  intros Hopt s s1 g1. subst s s1 g1.
  unfold targets, descent_body, initial_W, with_W, with_n_dim.
  unfold_methods. unfold getitem_params; simpl.
  destruct Hopt as [Hopt|Hopt]; rewrite Hopt; simpl.
  - destruct Y as [v|T0]; simpl.
    + destruct (index2bin v (n_classes (self w))) as [T|e]; simpl;
        [|reflexivity].
      destruct (params (self w)) as [p|] eqn:Hp; simpl; [|reflexivity].
      rewrite (for_loop_ext _ _ (gd_body (self w) X T))
        by (intros; apply gd_body_config; first [reflexivity|simpl; now rewrite Hp]).
      destruct (for_loop _ _ _); reflexivity.
    + destruct (params (self w)) as [p|] eqn:Hp; simpl; [|reflexivity].
      rewrite (for_loop_ext _ _ (gd_body (self w) X T0))
        by (intros; apply gd_body_config; first [reflexivity|simpl; now rewrite Hp]).
      destruct (for_loop _ _ _); reflexivity.
  - destruct Y as [v|T0]; simpl.
    + destruct (index2bin v (n_classes (self w))) as [T|e]; simpl;
        [|reflexivity].
      destruct (params (self w)) as [p|] eqn:Hp; simpl; [|reflexivity].
      rewrite (for_loop_ext _ _ (gd2_body (self w) X T))
        by (intros; apply gd2_body_config; first [reflexivity|simpl; now rewrite Hp]).
      destruct (for_loop _ _ _); reflexivity.
    + destruct (params (self w)) as [p|] eqn:Hp; simpl; [|reflexivity].
      rewrite (for_loop_ext _ _ (gd2_body (self w) X T0))
        by (intros; apply gd2_body_config; first [reflexivity|simpl; now rewrite Hp]).
      destruct (for_loop _ _ _); reflexivity.
Qed.

Ltac fit_paths :=
  unfold_methods; repeat split_match;
  repeat match goal with
         | E : (_, _) = (_, _) |- _ => injection E as ? ?; subst
         end; simpl in *.

(** X7.  [fit] never changes the constructor arguments of the object:
    whatever the optimizer and whether [fit] returns or raises,
    [get_params] and [classes_] are afterwards what they were, and
    [n_dim] is the number of columns of [X]. *)
Theorem fit_keeps_params (minimize : Minimizer) (X : ndarray) (Y : labels)
  (w : world) :
  get_params (self (snd (fit minimize X Y w))) = get_params (self w) /\
  classes_ (self (snd (fit minimize X Y w))) = classes_ (self w) /\
  n_dim (self (snd (fit minimize X Y w))) = Some (ncols X).
Proof.
  unfold get_params. fit_paths; repeat split; reflexivity.
Qed.

(** X8.  [fit] does not reseed the generator and draws exactly
    [X.shape[1] * n_classes] normal variates from it, whatever the
    optimizer, the number of iterations and the outcome; it draws none
    when the labels cannot be encoded. *)
Theorem fit_random_draws (minimize : Minimizer) (X : ndarray) (Y : labels)
  (w : world) :
  stream (np_random (snd (fit minimize X Y w))) = stream (np_random w) /\
  pos (np_random (snd (fit minimize X Y w))) =
    match targets (self w) Y with
    | Ok _ => (pos (np_random w) + ncols X * n_classes (self w))%nat
    | Raise _ => pos (np_random w)
    end.
Proof.
  unfold targets. fit_paths; split; try reflexivity; try congruence.
Qed.

Lemma fit_descent_eq (minimize : Minimizer) (X : ndarray) (Y : labels)
  (w : world) :
  optimizer (self w) = "GD"%string \/ optimizer (self w) = "GD2"%string ->
  fit minimize X Y w =
  match targets (self w) Y with
  | Raise e =>
      (Raise e, World (with_n_dim (self w) (ncols X)) (np_random w) (stdout w))
  | Ok T =>
      match params (self w) with
      | None =>
          (Raise TypeError,
           World (with_n_dim (self w) (ncols X))
                 (snd (draw (ncols X * n_classes (self w)) (np_random w)))
                 (stdout w))
      | Some p =>
          match for_loop (range (n_it p)) (descent_body (self w) X T)
                         (initial_W (self w) X (np_random w)) with
          | Ok Wf =>
              (Ok (with_W (with_n_dim (self w) (ncols X)) Wf),
               World (with_W (with_n_dim (self w) (ncols X)) Wf)
                     (snd (draw (ncols X * n_classes (self w)) (np_random w)))
                     (stdout w))
          | Raise e =>
              (Raise e,
               World (with_n_dim (self w) (ncols X))
                     (snd (draw (ncols X * n_classes (self w)) (np_random w)))
                     (stdout w))
          end
      end
  end.
Proof. intros Hopt. exact (fit_descent minimize X Y w Hopt). Qed.

(** X9.  With [params=None], the default of the constructor, [fit] with
    the optimizer ['GD'] (the default) or ['GD2'] raises [TypeError] once
    the labels are encoded: the initial weights are drawn, then
    [self.params['n_it']] fails, and [self.W] is left as it was. *)
Theorem fit_without_params_raises (minimize : Minimizer) (X T : ndarray)
  (Y : labels) (w : world) :
  params (self w) = None ->
  optimizer (self w) = "GD"%string \/ optimizer (self w) = "GD2"%string ->
  targets (self w) Y = Ok T ->
  fst (fit minimize X Y w) = Raise TypeError /\
  W (self (snd (fit minimize X Y w))) = W (self w) /\
  pos (np_random (snd (fit minimize X Y w))) =
    (pos (np_random w) + ncols X * n_classes (self w))%nat.
Proof.
  intros Hp Hopt HT. rewrite (fit_descent_eq minimize X Y w Hopt), HT, Hp.
  repeat split.
Qed.

Lemma fit_without_params_raises_witness :
  let w := World (init 2 "WL" "GD" None "off")
                 {| stream := fun k => INR k; pos := 0 |} [] in
  let X := NDArray 1 [[1]; [2]] in
  let r := fit failing_minimizer X (Y1 [0%Z; 1%Z]) w in
  fst r = Raise TypeError /\
  W (self (snd r)) = W (self w) /\
  pos (np_random (snd r)) = (pos (np_random w) + ncols X * 2)%nat.
Proof.
  intros w X r.
  exact (fit_without_params_raises failing_minimizer X
           (NDArray 2 [[1; 0]; [0; 1]]) (Y1 [0%Z; 1%Z]) w
           eq_refl (or_introl eq_refl) eq_refl).
Defined.

(** X10.  With a number of iterations that is zero or negative, the loop
    of ['GD'] or ['GD2'] does not run: [fit] returns normally and the
    learned matrix is the random initial matrix. *)
Theorem fit_no_iteration (minimize : Minimizer) (X T : ndarray)
  (Y : labels) (w : world) (p : Params) :
  params (self w) = Some p -> (n_it p <= 0)%Z ->
  optimizer (self w) = "GD"%string \/ optimizer (self w) = "GD2"%string ->
  targets (self w) Y = Ok T ->
  fst (fit minimize X Y w) = Ok (self (snd (fit minimize X Y w))) /\
  W (self (snd (fit minimize X Y w))) =
    Some (initial_W (self w) X (np_random w)).
Proof.
  intros Hp Hn Hopt HT. rewrite (fit_descent_eq minimize X Y w Hopt), HT, Hp.
  unfold range. replace (Z.to_nat (n_it p)) with O by lia.
  split; reflexivity.
Qed.

Lemma fit_no_iteration_witness :
  let w := World (init 2 "OSL" "GD2" (Some {| n_it := -3; rho := 1 |}) "off")
                 {| stream := fun k => INR k; pos := 0 |} [] in
  let X := NDArray 1 [[1]; [2]] in
  let r := fit failing_minimizer X (Y1 [0%Z; 1%Z]) w in
  fst r = Ok (self (snd r)) /\
  W (self (snd r)) = Some (initial_W (self w) X (np_random w)).
Proof.
  intros w X r.
  exact (fit_no_iteration failing_minimizer X
           (NDArray 2 [[1; 0]; [0; 1]]) (Y1 [0%Z; 1%Z]) w
           {| n_it := -3; rho := 1 |}
           eq_refl ltac:(simpl; lia) (or_intror eq_refl) eq_refl).
Defined.

Lemma index2bin_raises (vector : list Z) (dim : nat) :
  Exists (fun k => (k < - Z.of_nat dim \/ Z.of_nat dim <= k)%Z) vector ->
  index2bin vector dim = Raise IndexError.
Proof.
  intros H. unfold index2bin.
  rewrite (mapM_raise (norm_index dim) IndexError); [reflexivity| |].
  - intros k e He. now apply norm_index_raises in He.
  - eapply Exists_impl; [|exact H]. intros k. apply norm_index_out.
Qed.

(** X11.  When a label of a 1-D label array is not a valid index for
    [n_classes], [fit] raises [IndexError] with every optimizer, before
    any random number is drawn, and leaves [self.W] as it was. *)
Theorem fit_invalid_label_raises (minimize : Minimizer) (X : ndarray)
  (v : list Z) (w : world) :
  Exists (fun k => (k < - Z.of_nat (n_classes (self w)) \/
                    Z.of_nat (n_classes (self w)) <= k)%Z) v ->
  fst (fit minimize X (Y1 v) w) = Raise IndexError /\
  W (self (snd (fit minimize X (Y1 v) w))) = W (self w) /\
  np_random (snd (fit minimize X (Y1 v) w)) = np_random w /\
  stdout (snd (fit minimize X (Y1 v) w)) = stdout w.
Proof.
  intros H. apply index2bin_raises in H. unfold_methods. rewrite H.
  simpl. repeat split.
Qed.

Lemma fit_invalid_label_raises_witness :
  let w := World (init 2 "WL" "BFGS" None "off")
                 {| stream := fun k => INR k; pos := 0 |} [] in
  let r := fit failing_minimizer (NDArray 1 [[1]; [2]]) (Y1 [0%Z; 2%Z]) w in
  fst r = Raise IndexError /\
  W (self (snd r)) = W (self w) /\
  np_random (snd r) = np_random w /\
  stdout (snd r) = stdout w.
Proof.
  intros w r.
  apply (fit_invalid_label_raises failing_minimizer (NDArray 1 [[1]; [2]])
           [0%Z; 2%Z] w).
  right. left. right. simpl. lia.
Defined.

(** ** From untrained to trained *)

Lemma shape_dot (m d c : nat) (X Wm : ndarray) :
  has_shape m d X = true -> has_shape d c Wm = true ->
  has_shape m c (dot X Wm) = true.
Proof.
  intros HX HW. pose proof (has_shape_dot X Wm) as H.
  now rewrite (has_shape_nrows_eq m d X HX),
              (has_shape_ncols_eq d c Wm HW) in H.
Qed.

Lemma predict_value (s : WeakLogisticRegression) (Wm X : ndarray)
  (m d c : nat) :
  W s = Some Wm -> has_shape d c Wm = true -> c <> O ->
  has_shape m d X = true ->
  predict s X = Ok (map argmax (rows (dot X Wm))) /\
  predict_proba s X = Ok (softmax_spec (dot X Wm)).
Proof.
  intros HW HsW Hc HX. pose proof (shape_dot m d c X Wm HX HsW) as HS.
  unfold predict, predict_proba, getattr_W. rewrite HW. cbn [rbind].
  rewrite (softmax_ok m c _ HS Hc). cbn [rbind].
  now rewrite (argmax_softmax_shape m c _ HS Hc).
Qed.

Lemma initial_W_shape (s : WeakLogisticRegression) (X : ndarray)
  (g : RandomState) :
  has_shape (ncols X) (n_classes s) (initial_W s X g) = true.
Proof. apply has_shape_reshape2. apply length_draw. Qed.

(** On well-shaped data with at least one class the loop of either
    built-in optimizer runs to its end and returns a matrix of the shape
    of the initial one. *)
Lemma descent_loop_ok (s : WeakLogisticRegression) (n d : nat) (p : Params)
  (X T W0 : ndarray) (l : list nat) :
  params s = Some p -> n_classes s <> O ->
  has_shape n d X = true -> has_shape n (n_classes s) T = true ->
  has_shape d (n_classes s) W0 = true ->
  exists Wf,
    for_loop l (descent_body s X T) W0 = Ok Wf /\
    for_loop l (gd_body s X T) W0 = Ok Wf /\
    has_shape d (n_classes s) Wf = true.
Proof.
  intros Hp Hc HX HT HW.
  exists (Nat.iter (length l) (gd_step s X T) W0).
  pose proof (gd_loop_steps s n d p X T Hp Hc HX HT l W0 HW) as Hloop.
  split; [|split; [exact Hloop|]].
  - unfold descent_body. destruct (String.eqb (optimizer s) "GD");
      [exact Hloop|].
    rewrite <- (gd_loop_gd2_loop s n X T); [exact Hloop| |assumption|].
    + now apply (has_shape_ncols n d).
    + now rewrite (has_shape_ncols_eq n d X HX).
  - now apply (iter_gd_step_shape s n d p X T).
Qed.

(** X12.  A call of [fit] with the optimizer ['GD'] or ['GD2'], on
    well-shaped data with at least one class, returns the object and
    leaves it trained: [W] is a matrix with one row per feature and one
    column per class, and [predict] and [predict_proba] then succeed on
    every array with that number of features. *)
Theorem fit_trains (minimize : Minimizer) (X T : ndarray) (Y : labels)
  (w : world) (p : Params) (n d : nat) :
  optimizer (self w) = "GD"%string \/ optimizer (self w) = "GD2"%string ->
  params (self w) = Some p -> n_classes (self w) <> O ->
  has_shape n d X = true ->
  targets (self w) Y = Ok T ->
  has_shape n (n_classes (self w)) T = true ->
  let r := fit minimize X Y w in
  fst r = Ok (self (snd r)) /\
  exists Wf,
    W (self (snd r)) = Some Wf /\
    has_shape d (n_classes (self w)) Wf = true /\
    forall (X' : ndarray) (m : nat),
      has_shape m d X' = true ->
      exists l P,
        predict (self (snd r)) X' = Ok l /\ length l = m /\
        predict_proba (self (snd r)) X' = Ok P /\
        has_shape m (n_classes (self w)) P = true.
Proof.
  intros Hopt Hp Hc HX HT HsT r. subst r.
  pose proof (has_shape_ncols_eq n d X HX) as Hd.
  destruct (descent_loop_ok (self w) n d p X T
              (initial_W (self w) X (np_random w)) (range (n_it p))
              Hp Hc HX HsT) as [Wf [Hloop [_ HsW]]].
  { rewrite <- Hd. apply initial_W_shape. }
  rewrite (fit_descent_eq minimize X Y w Hopt), HT, Hp, Hloop.
  split; [reflexivity|]. exists Wf. split; [reflexivity|].
  split; [exact HsW|]. intros X' m HX'. simpl snd. simpl self.
  destruct (predict_value
              (with_W (with_n_dim (self w) (ncols X)) Wf) Wf X' m d
              (n_classes (self w)) eq_refl HsW Hc HX') as [Hl HP].
  pose proof (shape_dot m d _ X' Wf HX' HsW) as HS.
  exists (map argmax (rows (dot X' Wf))), (softmax_spec (dot X' Wf)).
  split; [exact Hl|]. split.
  - rewrite length_map. exact (has_shape_nrows_eq m _ _ HS).
  - split; [exact HP|]. now apply has_shape_softmax_spec.
Qed.

Lemma fit_trains_witness :
  let w := World (init 2 "WL" "GD" (Some {| n_it := 3; rho := 1 / 10 |}) "off")
                 {| stream := fun k => INR k; pos := 0 |} [] in
  let X := NDArray 1 [[1]; [2]] in
  let r := fit failing_minimizer X (Y1 [0%Z; 1%Z]) w in
  fst r = Ok (self (snd r)) /\
  exists Wf,
    W (self (snd r)) = Some Wf /\
    has_shape 1 2 Wf = true /\
    forall (X' : ndarray) (m : nat),
      has_shape m 1 X' = true ->
      exists l P,
        predict (self (snd r)) X' = Ok l /\ length l = m /\
        predict_proba (self (snd r)) X' = Ok P /\
        has_shape m 2 P = true.
Proof.
  intros w X r.
  exact (fit_trains failing_minimizer X (NDArray 2 [[1; 0]; [0; 1]])
           (Y1 [0%Z; 1%Z]) w {| n_it := 3; rho := 1 / 10 |} 2 1
           (or_introl eq_refl) eq_refl
           (fun H : 2%nat = 0%nat => O_S 1 (eq_sym H))
           eq_refl eq_refl eq_refl).
Defined.

(** X13.  The optimizers ['GD'] and ['GD2'] are interchangeable in [fit]:
    on well-shaped data, two objects that differ only in this choice and
    start from the same state of the generator learn the same weight
    matrix, or raise the same exception. *)
Theorem fit_GD2_learns_as_GD (minimize1 minimize2 : Minimizer)
  (s : WeakLogisticRegression) (g : RandomState) (out1 out2 : list printed)
  (X : ndarray) (Y : labels) (n d : nat) :
  has_shape n d X = true ->
  (forall T, targets s Y = Ok T -> has_shape n (n_classes s) T = true) ->
  learned (fit minimize1 X Y (World (with_optimizer s "GD") g out1)) =
  learned (fit minimize2 X Y (World (with_optimizer s "GD2") g out2)).
Proof.
  intros HX HT.
  rewrite (fit_descent_eq minimize1 X Y (World (with_optimizer s "GD") g out1)
             (or_introl eq_refl)).
  rewrite (fit_descent_eq minimize2 X Y (World (with_optimizer s "GD2") g out2)
             (or_intror eq_refl)).
  unfold targets in *. simpl self. simpl n_classes. simpl params.
  simpl np_random.
  destruct (match Y with
            | Y1 v => index2bin v (n_classes s)
            | Y2 T0 => Ok T0
            end) as [T|e] eqn:ET; [|reflexivity].
  specialize (HT T eq_refl).
  destruct (params s) as [p|] eqn:Hp; [|reflexivity].
  unfold descent_body, initial_W. simpl.
  rewrite (for_loop_ext _ (gd_body (with_optimizer s "GD") X T)
             (gd_body s X T)) by (intros; now apply gd_body_config).
  rewrite (for_loop_ext _ (gd2_body (with_optimizer s "GD2") X T)
             (gd2_body s X T)) by (intros; now apply gd2_body_config).
  rewrite (gd_loop_gd2_loop s n X T (has_shape_ncols n d X HX) HT).
  - destruct (for_loop _ _ _); reflexivity.
  - apply has_shape_reshape2. now rewrite length_map, length_seq.
Qed.

Lemma fit_GD2_learns_as_GD_witness :
  let s := init 2 "OSL" "GD" (Some {| n_it := 4; rho := 1 / 10 |}) "off" in
  let g := {| stream := fun k => INR k; pos := 0 |} in
  let X := NDArray 1 [[1]; [2]] in
  let Y := Y2 (NDArray 2 [[1; 1]; [0; 1]]) in
  learned (fit failing_minimizer X Y (World (with_optimizer s "GD") g [])) =
  learned (fit failing_minimizer X Y (World (with_optimizer s "GD2") g [])).
Proof.
  intros s g X Y.
  apply (fit_GD2_learns_as_GD failing_minimizer failing_minimizer s g [] []
           X Y 2 1 eq_refl).
  intros T E. injection E as <-. reflexivity.
Defined.

(** X14.  A call of [fit] that raises does not touch a trained model:
    [predict] and [predict_proba] return afterwards what they returned
    before the call. *)
Theorem failed_fit_keeps_predictions (minimize : Minimizer) (X : ndarray)
  (Y : labels) (w : world) (e : exn) (X' : ndarray) :
  fst (fit minimize X Y w) = Raise e ->
  predict (self (snd (fit minimize X Y w))) X' = predict (self w) X' /\
  predict_proba (self (snd (fit minimize X Y w))) X' =
    predict_proba (self w) X'.
Proof.
  intros H. pose proof (failed_fit_keeps_W minimize X Y w e H) as HW.
  unfold predict, predict_proba, getattr_W. rewrite HW. split; reflexivity.
Qed.

Lemma failed_fit_keeps_predictions_witness :
  let s := {| sound := "off"; params := None; method := "WL";
              optimizer := "GD"; n_classes := 2; classes_ := [0; 1]%nat;
              n_dim := Some 1%nat; W := Some (NDArray 2 [[1; -1]]) |} in
  let w := World s {| stream := fun k => INR k; pos := 0 |} [] in
  let X := NDArray 1 [[1]; [2]] in
  let r := fit failing_minimizer X (Y1 [0%Z; 5%Z]) w in
  predict (self (snd r)) X = predict s X /\
  predict_proba (self (snd r)) X = predict_proba s X.
Proof.
  intros s w X r.
  exact (failed_fit_keeps_predictions failing_minimizer X (Y1 [0%Z; 5%Z]) w
           IndexError X eq_refl).
Defined.

(** X15.  A classifier constructed with [n_classes=0] cannot be fitted by
    gradient descent.  With ['GD'] or ['GD2'] and at least one iteration,
    [fit] raises [IndexError] for a non-empty 1-D label array (no label is
    a valid index, see [index2bin]) and [ValueError] for every other label
    array (the maximum over an empty row in [softmax]); [self.W] is left
    as it was. *)
Theorem fit_without_classes_raises (minimize : Minimizer) (X : ndarray)
  (Y : labels) (w : world) (p : Params) :
  n_classes (self w) = O ->
  optimizer (self w) = "GD"%string \/ optimizer (self w) = "GD2"%string ->
  params (self w) = Some p -> (1 <= n_it p)%Z ->
  fst (fit minimize X Y w) =
    Raise (match Y with
           | Y1 (_ :: _) => IndexError
           | _ => ValueError
           end) /\
  W (self (snd (fit minimize X Y w))) = W (self w).
Proof.
  intros Hc Hopt Hp Hn.
  assert (Hloop : forall T,
            for_loop (range (n_it p)) (descent_body (self w) X T)
                     (initial_W (self w) X (np_random w)) = Raise ValueError).
  { intros T. unfold range.
    destruct (Z.to_nat (n_it p)) as [|k] eqn:Ek; [lia|].
    simpl seq. simpl for_loop.
    assert (Hs : forall A, ncols A = O ->
                 softmax (dot X A) = Raise ValueError).
    { intros A HA. apply softmax_zero_cols. unfold dot. simpl. exact HA. }
    unfold descent_body, gd_body, gd2_body, gradLogLoss.
    destruct (String.eqb (optimizer (self w)) "GD");
      rewrite Hs; try reflexivity; simpl; exact Hc. }
  rewrite (fit_descent_eq minimize X Y w Hopt).
  destruct Y as [[|k v]|T0]; unfold targets.
  - change (index2bin [] (n_classes (self w)))
      with (Ok (NDArray (n_classes (self w)) [])).
    rewrite Hp, Hloop. split; reflexivity.
  - rewrite (index2bin_raises (k :: v) (n_classes (self w))).
    + split; reflexivity.
    + apply Exists_cons_hd. rewrite Hc. simpl. lia.
  - rewrite Hp, Hloop. split; reflexivity.
Qed.

Lemma fit_without_classes_raises_witness :
  let w := World (init 0 "WL" "GD" (Some {| n_it := 1; rho := 1 |}) "off")
                 {| stream := fun k => INR k; pos := 0 |} [] in
  let X := NDArray 1 [[1]] in
  let r1 := fit failing_minimizer X (Y1 [0%Z]) w in
  let r2 := fit failing_minimizer X (Y2 (NDArray 0 [[]])) w in
  (fst r1 = Raise IndexError /\ W (self (snd r1)) = W (self w)) /\
  (fst r2 = Raise ValueError /\ W (self (snd r2)) = W (self w)).
Proof.
  intros w X r1 r2. split.
  - exact (fit_without_classes_raises failing_minimizer X (Y1 [0%Z]) w
             {| n_it := 1; rho := 1 |}
             eq_refl (or_introl eq_refl) eq_refl ltac:(simpl; lia)).
  - exact (fit_without_classes_raises failing_minimizer X
             (Y2 (NDArray 0 [[]])) w {| n_it := 1; rho := 1 |}
             eq_refl (or_introl eq_refl) eq_refl ltac:(simpl; lia)).
Defined.

(** ** Hard labels *)

Lemma nth_unit_vec (c j k : nat) :
  (k < c)%nat -> nth k (unit_vec c j) 0 = if Nat.eqb k j then 1 else 0.
Proof. intros Hk. unfold unit_vec. now rewrite nth_map_seq. Qed.

Lemma argmax_unit_vec (c j : nat) :
  (j < c)%nat -> argmax (unit_vec c j) = j.
Proof.
  intros Hj.
  destruct (argmax_spec (unit_vec c j)) as [H1 [H2 _]].
  { unfold unit_vec. destruct c; [lia|discriminate]. }
  rewrite length_unit_vec in *. specialize (H2 j Hj).
  rewrite !nth_unit_vec in H2 by assumption.
  rewrite Nat.eqb_refl in H2.
  destruct (Nat.eqb_spec (argmax (unit_vec c j)) j); [assumption|lra].
Qed.

(** X16.  Encoding and decoding labels: for labels that [index2bin]
    accepts, the arg-max of every row of the one-hot matrix is the label
    itself (for a negative label, the label counted from the end). *)
Theorem index2bin_argmax_round_trip (vector : list Z) (dim : nat) :
  Forall (fun k => (- Z.of_nat dim <= k < Z.of_nat dim)%Z) vector ->
  exists B,
    index2bin vector dim = Ok B /\
    map argmax (rows B) =
      map (fun k => Z.to_nat (k mod Z.of_nat dim)) vector.
Proof.
  intros H. eexists. split; [now apply index2bin_value|].
  simpl. rewrite map_map. apply map_ext_in; intros k Hk.
  apply argmax_unit_vec. rewrite Forall_forall in H. specialize (H k Hk).
  pose proof (Z.mod_pos_bound k (Z.of_nat dim) ltac:(lia)). lia.
Qed.

Lemma index2bin_argmax_round_trip_witness :
  exists B,
    index2bin [2%Z; 0%Z; (-1)%Z] 3 = Ok B /\
    map argmax (rows B) =
      map (fun k => Z.to_nat (k mod Z.of_nat 3)) [2%Z; 0%Z; (-1)%Z].
Proof.
  apply (index2bin_argmax_round_trip [2%Z; 0%Z; (-1)%Z] 3).
  repeat constructor; simpl; lia.
Defined.

Lemma index2bin_ok_inv (vector : list Z) (dim : nat) (T : ndarray) :
  index2bin vector dim = Ok T ->
  Forall (fun k => (- Z.of_nat dim <= k < Z.of_nat dim)%Z) vector /\
  T = NDArray dim
        (map (fun k => unit_vec dim (Z.to_nat (k mod Z.of_nat dim))) vector).
Proof.
  intros H.
  assert (HF : Forall (fun k => (- Z.of_nat dim <= k < Z.of_nat dim)%Z)
                      vector).
  { destruct (Forall_Exists_dec
                (fun k => (- Z.of_nat dim <= k < Z.of_nat dim)%Z)
                (fun k => ltac:(
                   destruct (Z_le_dec (- Z.of_nat dim) k);
                   destruct (Z_lt_dec k (Z.of_nat dim));
                   first [left; lia|right; lia]))
                vector) as [HF|HE]; [exact HF|].
    rewrite index2bin_raises in H; [discriminate|].
    eapply Exists_impl; [|exact HE]. simpl. intros k Hk. lia. }
  split; [exact HF|]. rewrite (index2bin_value vector dim HF) in H.
  now injection H.
Qed.

Lemma index2bin_shape (vector : list Z) (dim : nat) (T : ndarray) :
  index2bin vector dim = Ok T -> has_shape (length vector) dim T = true.
Proof.
  intros H. destruct (index2bin_ok_inv vector dim T H) as [_ ->].
  apply has_shape_spec. unfold nrows; simpl.
  split; [apply length_map|]. split; [reflexivity|].
  unfold wf; simpl. apply forallb_forall. intros r Hr.
  apply in_map_iff in Hr. destruct Hr as [k [<- _]].
  rewrite length_unit_vec. apply Nat.eqb_refl.
Qed.

(** The label of sample [i], as an index below [dim]. *)
Lemma ent_index2bin (vector : list Z) (dim : nat) (T : ndarray) (i j : nat) :
  index2bin vector dim = Ok T -> (i < length vector)%nat -> (j < dim)%nat ->
  (Z.to_nat (nth i vector 0%Z mod Z.of_nat dim) < dim)%nat /\
  ent T i j =
    if Nat.eqb j (Z.to_nat (nth i vector 0%Z mod Z.of_nat dim)) then 1 else 0.
Proof.
  intros H Hi Hj. destruct (index2bin_ok_inv vector dim T H) as [HF ->].
  split.
  - pose proof (Z.mod_pos_bound (nth i vector 0%Z) (Z.of_nat dim)
                  ltac:(lia)). lia.
  - unfold ent; simpl.
    rewrite (nth_indep _ [] (unit_vec dim (Z.to_nat (0 mod Z.of_nat dim))))
      by now rewrite length_map.
    rewrite (map_nth (fun k => unit_vec dim (Z.to_nat (k mod Z.of_nat dim)))).
    now apply nth_unit_vec.
Qed.


(** On the row [T[i] * p[i]] of a one-hot row [T[i]] and positive
    probabilities, [hardmax] returns [T[i]]. *)
Lemma hardmax_entry_onehot (c y j : nat) (p : nat -> R) :
  (y < c)%nat -> (j < c)%nat -> 0 < p y ->
  hardmax_entry c (fun k => (if Nat.eqb k y then 1 else 0) * p k) j =
  if Nat.eqb j y then 1 else 0.
Proof.
  intros Hy Hj Hp.
  destruct (hardmax_entry_spec c
              (fun k => (if Nat.eqb k y then 1 else 0) * p k) j Hj)
    as [H01 Hiff].
  destruct (Nat.eqb_spec j y) as [->|Hne].
  - apply Hiff. intros j' Hj' Hne'.
    destruct (Nat.eqb_spec j' y); [contradiction|lra].
  - destruct H01 as [H0|H1]; [exact H0|]. exfalso.
    pose proof (proj1 Hiff H1 y Hy ltac:(congruence)) as Hlt.
    cbv beta in Hlt. rewrite Nat.eqb_refl in Hlt. lra.
Qed.

Lemma hardmax_entry_ext (c : nat) (f g : nat -> R) (j : nat) :
  (forall k, (k < c)%nat -> f k = g k) -> (j < c)%nat ->
  hardmax_entry c f j = hardmax_entry c g j.
Proof.
  intros H Hj. unfold hardmax_entry.
  assert (Em : map f (seq 0 c) = map g (seq 0 c)).
  { apply map_ext_in; intros k Hk. apply in_seq in Hk. apply H. lia. }
  rewrite Em, (H j Hj). do 3 f_equal.
  apply map_ext_in; intros k Hk. apply in_seq in Hk.
  now rewrite H by lia.
Qed.

Lemma hardmax_hard_labels (v : list Z) (c : nat) (T P : ndarray) :
  index2bin v c = Ok T -> c <> O ->
  has_shape (length v) c P = true ->
  (forall i, (i < length v)%nat ->
     0 < ent P i (Z.to_nat (nth i v 0%Z mod Z.of_nat c))) ->
  hardmax (ewise Rmult T P) = Ok T.
Proof.
  intros HT Hc HP Hpos.
  pose proof (index2bin_shape v c T HT) as HsT.
  rewrite (ewise_canon Rmult (length v) c T P HsT HP).
  rewrite hardmax_tab by assumption.
  transitivity (Ok (tab (length v) c (ent T)));
    [|now rewrite <- (tab_canon (length v) c T HsT)].
  f_equal. apply tab_ext; intros i j Hi Hj.
  destruct (ent_index2bin v c T i j HT Hi Hj) as [Hy Ej]. rewrite Ej.
  rewrite <- (hardmax_entry_onehot c _ j (ent P i) Hy Hj (Hpos i Hi)).
  apply hardmax_entry_ext; [|assumption].
  intros k Hk. now rewrite (proj2 (ent_index2bin v c T i k HT Hi Hk)).
Qed.

(** Over the reals the probabilities that the two functions compute are
    never zero. *)
Lemma computed_probabilities_positive (n c : nat) (A : ndarray) (i j : nat) :
  has_shape n c A = true -> c <> O -> (i < n)%nat -> (j < c)%nat ->
  0 < ent (emap exp (logsoftmax_spec A)) i j /\ 0 < ent (softmax_spec A) i j.
Proof.
  intros HA Hc Hi Hj. rewrite (exp_logsoftmax_spec n c A HA Hc).
  rewrite (tab_canon n c A HA), softmax_spec_tab, ent_tab by assumption.
  pose proof (softmax_entry_bounds c (ent A i) j Hj). split; lra.
Qed.

(** X17.  With hard labels, that is targets produced by [index2bin], the
    optimistic superset loss is the standard loss, provided the
    probability computed for the label of every sample is not zero (the
    [p] of [logLoss], which is [np.exp(logp)], and the [p] of
    [gradLogLoss], which is [softmax(X.W)]): [T * p] then has its only
    positive entry at the label, [hardmax] returns [T], and the loss and
    the gradient of method ['OSL'] are those of any other method. *)
Theorem OSL_is_StandardWeak_on_hard_labels (s : WeakLogisticRegression)
  (v : list Z) (d : nat) (w : list R) (X T L P : ndarray) :
  n_classes s <> O ->
  index2bin v (n_classes s) = Ok T ->
  has_shape (length v) d X = true ->
  length w = (d * n_classes s)%nat ->
  let S0 := dot X (reshape2 d (n_classes s) w) in
  let label i := Z.to_nat (nth i v 0%Z mod Z.of_nat (n_classes s)) in
  logsoftmax S0 = Ok L -> softmax S0 = Ok P ->
  (forall i, (i < length v)%nat ->
     0 < ent (emap exp L) i (label i) /\ 0 < ent P i (label i)) ->
  logLoss (with_method s "OSL") w X T = logLoss (with_method s "WL") w X T /\
  gradLogLoss (with_method s "OSL") w X T =
  gradLogLoss (with_method s "WL") w X T.
Proof.
  intros Hc HT HX Hw S0 label HL HP Hpos.
  pose proof (shape_scores s (length v) d w X HX Hw) as HS.
  pose proof (has_shape_ncols_eq _ _ X HX) as Hd.
  fold S0 in HS.
  assert (HsE : has_shape (length v) (n_classes s) (emap exp L) = true).
  { rewrite (logsoftmax_ok _ _ S0 HS Hc) in HL. injection HL as <-.
    rewrite (exp_logsoftmax_spec _ _ S0 HS Hc).
    now apply has_shape_softmax_spec. }
  assert (HsP : has_shape (length v) (n_classes s) P = true).
  { rewrite (softmax_ok _ _ S0 HS Hc) in HP. injection HP as <-.
    now apply has_shape_softmax_spec. }
  pose proof (hardmax_hard_labels v (n_classes s) T (emap exp L) HT Hc HsE
                (fun i Hi => proj1 (Hpos i Hi))) as HD1.
  pose proof (hardmax_hard_labels v (n_classes s) T P HT Hc HsP
                (fun i Hi => proj2 (Hpos i Hi))) as HD2.
  unfold logLoss, gradLogLoss, is_OSL. simpl. rewrite Hd. fold S0.
  rewrite HL, HP. cbn [rbind]. rewrite HD1, HD2. split; reflexivity.
Qed.

Lemma OSL_is_StandardWeak_on_hard_labels_witness :
  let s := init 2 "OSL" "GD" None "off" in
  let X := NDArray 1 [[1]; [2]] in
  let T := NDArray 2 [unit_vec 2 1; unit_vec 2 0] in
  logLoss (with_method s "OSL") [1; 0] X T =
  logLoss (with_method s "WL") [1; 0] X T /\
  gradLogLoss (with_method s "OSL") [1; 0] X T =
  gradLogLoss (with_method s "WL") [1; 0] X T.
Proof.
  intros s X T.
  assert (HS : has_shape 2 2 (dot X (reshape2 1 2 [1; 0])) = true)
    by (apply (shape_scores s 2 1); reflexivity).
  apply (OSL_is_StandardWeak_on_hard_labels s [1%Z; 0%Z] 1 [1; 0] X T
           (logsoftmax_spec (dot X (reshape2 1 2 [1; 0])))
           (softmax_spec (dot X (reshape2 1 2 [1; 0])))).
  - discriminate.
  - reflexivity.
  - reflexivity.
  - reflexivity.
  - apply (logsoftmax_ok 2 2); [exact HS|discriminate].
  - apply (softmax_ok 2 2); [exact HS|discriminate].
  - intros i Hi.
    apply (computed_probabilities_positive 2 2);
      [exact HS|discriminate|exact Hi|].
    pose proof (Z.mod_pos_bound (nth i [1%Z; 0%Z] 0%Z) (Z.of_nat 2)
                  ltac:(simpl; lia)) as Hb.
    simpl n_classes. simpl Z.of_nat in *. lia.
Defined.

(** ** The value of the loss *)









(** ** What gradient descent conserves *)



Section Conservation.

Variable s : WeakLogisticRegression.
Variables n d : nat.
Variable p : Params.
Variables X T : ndarray.

Hypothesis Hm : is_OSL s = false.
Hypothesis Hp : params s = Some p.
Hypothesis Hc : n_classes s <> O.
Hypothesis HX : has_shape n d X = true.
Hypothesis HT : has_shape n (n_classes s) T = true.
Hypothesis Hs : Forall (fun r => vsum r = 1) (rows T).



End Conservation.



(** ** The external optimizer raising *)

(** X21.  When the external optimizer raises, [fit] raises the same
    exception: the starting point has been drawn from the generator, but
    [self.W] is left as it was and nothing is printed. *)
Theorem fit_external_raises (minimize : Minimizer) (X T : ndarray)
  (Y : labels) (w : world) (e : exn) :
  String.eqb (optimizer (self w)) "GD" = false ->
  String.eqb (optimizer (self w)) "GD2" = false ->
  targets (self w) Y = Ok T ->
  let s1 := with_n_dim (self w) (ncols X) in
  let c := n_classes (self w) in
  let w0 := vscale (1 / 100000) (fst (draw (ncols X * c) (np_random w))) in
  minimize (fun w' => logLoss s1 w' X T) w0
           (fun w' => gradLogLoss s1 w' X T) (optimizer (self w)) = Raise e ->
  let r := fit minimize X Y w in
  fst r = Raise e /\
  W (self (snd r)) = W (self w) /\
  stdout (snd r) = stdout w /\
  pos (np_random (snd r)) = (pos (np_random w) + ncols X * c)%nat.
Proof.
  intros Hgd Hgd2 HT s1 c w0 Hmin r. subst r s1 c w0.
  unfold targets in HT. unfold with_n_dim in Hmin. unfold_methods.
  rewrite Hgd, Hgd2.
  destruct Y as [v|T0]; simpl in *.
  - rewrite HT. simpl. rewrite Hmin. simpl. repeat split.
  - injection HT as ->. rewrite Hmin. simpl. repeat split.
Qed.

Lemma fit_external_raises_witness :
  let w := World (init 2 "WL" "no-such-solver" None "off")
                 {| stream := fun _ => 0; pos := 0 |} [] in
  let X := NDArray 1 [[1]] in
  let r := fit (fun _ _ _ _ => Raise ValueError) X
               (Y2 (NDArray 2 [[1; 0]])) w in
  fst r = Raise ValueError /\
  W (self (snd r)) = W (self w) /\
  stdout (snd r) = stdout w /\
  pos (np_random (snd r)) = (pos (np_random w) + ncols X * 2)%nat.
Proof.
  intros w X r.
  exact (fit_external_raises (fun _ _ _ _ => Raise ValueError) X
           (NDArray 2 [[1; 0]]) (Y2 (NDArray 2 [[1; 0]])) w ValueError
           eq_refl eq_refl eq_refl eq_refl).
Defined.
